(** * BlochSphere3js: the qubit state model and transition engine

  A shallow embedding of [src/bloch-sphere.js] (class
  [BlochSphereVisualizer] and class [Complex]) and the properties of its
  angle state, gates, presets, measurement, animation and state display.

  Numbers.  In the main model a JavaScript number is a real number or
  [NaN]: arithmetic is exact (no rounding, no infinities, no signed zero),
  and [Math.sin], [Math.cos], [Math.acos], [Math.atan2], [Math.exp] are the
  real functions they approximate.  [NaN] is kept because the code can
  produce it ([undefined - x]) and every comparison with it is false.  What
  is proved there holds of the running code up to the rounding of doubles;
  the statements say where that matters (a tolerance, an angle taken modulo
  2 PI, a closed end of a range, a bound that keeps doubles from
  overflowing).

  Doubles.  Module [Double] embeds the slider listeners, the Pauli gates
  and the measurement callback a second time, on binary64 floating-point
  numbers with [Math.PI] the double 3.141592653589793.  It is used where
  the outcome depends on rounding.

  Time and chance.  [Date.now()] and [Math.random()] are inputs of the
  operations that read them.  The callbacks handed to
  [requestAnimationFrame] and [setTimeout] are kept in the state and run by
  the events [Frame] and [MeasureTimeout].

  Rendering (three.js scene, DOM widgets) is left out; what the code writes
  into the state display is the result of [updateStateDisplay]. *)

From Stdlib Require Import PrimFloat.
From Stdlib Require FloatOps SpecFloat Uint63.
From Stdlib Require Import Reals Lra Lia ZArith List String Ascii Bool.
From Stdlib Require Import DecimalString.
Import ListNotations.

Local Open Scope R_scope.

(** ** JavaScript numbers *)

Inductive number : Type :=
| NaN : number
| Num (r : R) : number.

Definition Rltb (x y : R) : bool := if Rlt_dec x y then true else false.

Definition Reqb (x y : R) : bool := if Req_dec_T x y then true else false.

(** [trunc x]: the integer part of [x], rounding towards zero. *)
Definition Rtrunc (x : R) : R :=
  if Rle_dec 0 x then IZR (Int_part x) else - IZR (Int_part (- x)).

Module JS.

Definition lift1 (f : R -> R) (a : number) : number :=
  match a with
  | Num x => Num (f x)
  | NaN => NaN
  end.

Definition lift2 (f : R -> R -> R) (a b : number) : number :=
  match a, b with
  | Num x, Num y => Num (f x y)
  | _, _ => NaN
  end.

Definition add : number -> number -> number := lift2 Rplus.
Definition sub : number -> number -> number := lift2 Rminus.
Definition mul : number -> number -> number := lift2 Rmult.
Definition neg : number -> number := lift1 Ropp.

(** [a / b].  A zero divisor gives an infinity or NaN in JavaScript; the
    model has no infinities and answers [NaN].  No division of the modelled
    code has a zero divisor unless a caller passes [duration = 0]. *)
Definition div (a b : number) : number :=
  match a, b with
  | Num x, Num y => if Reqb y 0 then NaN else Num (x / y)
  | _, _ => NaN
  end.

(** [a % b]: the remainder has the sign of the dividend. *)
Definition rem (a b : number) : number :=
  match a, b with
  | Num x, Num y => if Reqb y 0 then NaN else Num (x - y * Rtrunc (x / y))
  | _, _ => NaN
  end.

(** [a ** n] and [Math.pow(a, n)] for the literal exponents of the code. *)
Definition pow (a : number) (n : nat) : number :=
  match n with
  | O => Num 1
  | _ => lift1 (fun x => x ^ n) a
  end.

(** [a < b] and [a > b]: false when an operand is NaN. *)
Definition lt (a b : number) : bool :=
  match a, b with
  | Num x, Num y => Rltb x y
  | _, _ => false
  end.

Definition gt (a b : number) : bool := lt b a.

(** [a === b] on numbers: NaN equals nothing. *)
Definition strictEq (a b : number) : bool :=
  match a, b with
  | Num x, Num y => Reqb x y
  | _, _ => false
  end.

End JS.

Declare Scope js_scope.
Delimit Scope js_scope with js.
Bind Scope js_scope with number.
Infix "+" := JS.add : js_scope.
Infix "-" := JS.sub : js_scope.
Infix "*" := JS.mul : js_scope.
Infix "/" := JS.div : js_scope.
Infix "mod" := JS.rem : js_scope.
Infix "**" := JS.pow (at level 30, right associativity) : js_scope.
Infix "<?" := JS.lt : js_scope.
Infix ">?" := JS.gt (at level 70) : js_scope.
Notation "- a" := (JS.neg a) : js_scope.

(** A numeric literal of the source. *)
Coercion Num : R >-> number.

Module Math.

Definition PI : number := Num Rtrigo1.PI.

Definition abs : number -> number := JS.lift1 Rabs.
Definition sin : number -> number := JS.lift1 Rtrigo_def.sin.
Definition cos : number -> number := JS.lift1 Rtrigo_def.cos.
Definition exp : number -> number := JS.lift1 Rtrigo_def.exp.

Definition min : number -> number -> number := JS.lift2 Rmin.

Definition pow : number -> nat -> number := JS.pow.

(** [Math.acos(x)] is NaN outside [-1, 1]. *)
Definition acos (a : number) : number :=
  match a with
  | Num x => if Rltb x (-1) || Rltb 1 x then NaN else Num (Ratan.acos x)
  | NaN => NaN
  end.

(** The angle of the point [(x, y)] in (-PI, PI], 0 at the origin. *)
Definition Ratan2 (y x : R) : R :=
  if Rltb 0 x then atan (y / x)
  else if Rltb x 0 then
    if Rltb y 0 then atan (y / x) - Rtrigo1.PI else atan (y / x) + Rtrigo1.PI
  else if Rltb 0 y then Rtrigo1.PI / 2
  else if Rltb y 0 then - (Rtrigo1.PI / 2)
  else 0.

Definition atan2 : number -> number -> number := JS.lift2 Ratan2.

End Math.


(** ** Strings and number formatting *)

Local Open Scope string_scope.

Fixpoint zeros (n : nat) : string :=
  match n with
  | O => ""
  | S k => "0" ++ zeros k
  end.

(** [s.substring(n)]: what is left of [s] from index [n] on. *)
Fixpoint substringFrom (n : nat) (s : string) : string :=
  match n, s with
  | O, _ => s
  | S k, String _ rest => substringFrom k rest
  | S _, EmptyString => EmptyString
  end.

(** Decimal digits of a natural number, ["0"] for zero. *)
Definition digitsOf (n : Z) : string :=
  NilZero.string_of_uint (N.to_uint (Z.to_N n)).

(** [Number.prototype.toFixed]: the integer [n] nearest to [x * 10^f] (the
    larger one on a tie), on the absolute value of [x], written with [f]
    digits after the point and a leading sign for negative [x].  (From 1e21
    on JavaScript switches to exponent notation, which is not modelled;
    the code formats amplitudes, of magnitude at most 1.) *)
Definition nearestScaled (x : R) (f : nat) : Z :=
  Int_part (x * 10 ^ f + 1 / 2).

Definition fixedDigits (n : Z) (f : nat) : string :=
  let m := digitsOf n in
  let k := String.length m in
  let m := if Nat.leb k f then zeros (f + 1 - k) ++ m else m in
  let k := String.length m in
  match f with
  | O => m
  | _ => substring 0 (k - f) m ++ "." ++ substringFrom (k - f) m
  end.

Definition toFixed (a : number) (f : nat) : string :=
  match a with
  | NaN => "NaN"
  | Num x =>
      if Rltb x 0 then "-" ++ fixedDigits (nearestScaled (- x) f) f
      else fixedDigits (nearestScaled x f) f
  end.

(** ** class Complex *)

Record Complex : Type := mkComplex { real : number; imag : number }.

Module ComplexOps.

(** [static exp(z)] *)
Definition exp (z : Complex) : Complex :=
  let r := Math.exp (real z) in
  mkComplex (r * Math.cos (imag z))%js (r * Math.sin (imag z))%js.

(** [mul(other)] *)
Definition mul (this other : Complex) : Complex :=
  mkComplex
    (real this * real other - imag this * imag other)%js
    (real this * imag other + imag this * real other)%js.

(** [scale(s)] *)
Definition scale (this : Complex) (s : number) : Complex :=
  mkComplex (real this * s)%js (imag this * s)%js.

End ComplexOps.

(** ** Property lookup on an object literal

    [obj[key]] finds the own properties of the literal first and then the
    properties every object inherits from [Object.prototype]. *)

Definition Object_prototype : list string :=
  [ "constructor"; "hasOwnProperty"; "isPrototypeOf"; "propertyIsEnumerable";
    "toLocaleString"; "toString"; "valueOf"; "__proto__";
    "__defineGetter__"; "__defineSetter__"; "__lookupGetter__";
    "__lookupSetter__" ].

Inductive property (A : Type) : Type :=
| Own (a : A)
| Inherited (name : string)
| Undefined.

Arguments Own {A} a.
Arguments Inherited {A} name.
Arguments Undefined {A}.

Fixpoint ownProperty {A : Type} (obj : list (string * A)) (key : string)
  : option A :=
  match obj with
  | [] => None
  | (k, v) :: rest => if String.eqb k key then Some v else ownProperty rest key
  end.

Definition getProperty {A : Type} (obj : list (string * A)) (key : string)
  : property A :=
  match ownProperty obj key with
  | Some v => Own v
  | None =>
      if existsb (String.eqb key) Object_prototype then Inherited key
      else Undefined
  end.

(** The inherited members that raise a TypeError when called as
    [obj[key]()]: [__proto__] is not a function, and the two definers reject
    an undefined accessor. *)
Definition throwsWhenCalled (name : string) : bool :=
  existsb (String.eqb name)
    [ "__proto__"; "__defineGetter__"; "__defineSetter__" ].


(** ** class BlochSphereVisualizer *)

(** The closure [animate] that [animateToState] hands to
    [requestAnimationFrame]: the variables it captured. *)
Record Animation : Type := mkAnimation {
  startTheta : number;
  startPhi : number;
  startTime : R;
  targetTheta : number;
  targetPhi : number;
  duration : number
}.

Record Visualizer : Type := mkVisualizer {
  theta : number;                       (* this.theta *)
  phi : number;                         (* this.phi *)
  isAnimating : bool;                   (* this.isAnimating *)
  animationFrames : list Animation;     (* callbacks waiting for the next frame *)
  measureTimeouts : nat                 (* measurement callbacks waiting in setTimeout *)
}.

(** The constructor: [theta = 0], [phi = 0], [isAnimating = false]. *)
Definition constructor : Visualizer := mkVisualizer 0 0 false [] 0.

Definition setTheta (v : number) (s : Visualizer) : Visualizer :=
  mkVisualizer v (phi s) (isAnimating s) (animationFrames s) (measureTimeouts s).

Definition setPhi (v : number) (s : Visualizer) : Visualizer :=
  mkVisualizer (theta s) v (isAnimating s) (animationFrames s) (measureTimeouts s).

Definition setIsAnimating (b : bool) (s : Visualizer) : Visualizer :=
  mkVisualizer (theta s) (phi s) b (animationFrames s) (measureTimeouts s).

Definition requestAnimationFrame (a : Animation) (s : Visualizer) : Visualizer :=
  mkVisualizer (theta s) (phi s) (isAnimating s) (animationFrames s ++ [a])
    (measureTimeouts s).

Definition clearAnimationFrames (s : Visualizer) : Visualizer :=
  mkVisualizer (theta s) (phi s) (isAnimating s) [] (measureTimeouts s).

Definition setMeasureTimeouts (n : nat) (s : Visualizer) : Visualizer :=
  mkVisualizer (theta s) (phi s) (isAnimating s) (animationFrames s) n.

(** The two slider listeners of [setupEventListeners]; [value] is
    [parseFloat(e.target.value)]. *)
Definition thetaSliderInput (value : number) (s : Visualizer) : Visualizer :=
  setTheta ((value * Math.PI) / 180)%js s.

Definition phiSliderInput (value : number) (s : Visualizer) : Visualizer :=
  setPhi ((value * Math.PI) / 180)%js s.

(** [formatComplex(real, imag)] *)
Definition formatComplex (real imag : number) : string :=
  if (Math.abs imag <? 1e-10)%js then toFixed real 3
  else
    let realStr := if (Math.abs real <? 1e-10)%js then "" else toFixed real 3 in
    let imagStr :=
      if (Math.abs (imag - 1) <? 1e-10)%js then "i"
      else if (Math.abs (imag + 1) <? 1e-10)%js then "-i"
      else toFixed imag 3 ++ "i" in
    if String.eqb realStr "" then imagStr
    else if (imag >? 0)%js then realStr ++ " + " ++ imagStr
    else realStr ++ " - " ++ substringFrom 1 imagStr.

(** The amplitudes computed by [updateStateDisplay]. *)
Definition alpha (s : Visualizer) : Complex :=
  mkComplex (Math.cos (theta s / 2)) 0.

Definition beta (s : Visualizer) : Complex :=
  ComplexOps.scale (ComplexOps.exp (mkComplex 0 (phi s)))
    (Math.sin (theta s / 2)).

(** [updateStateDisplay()]: the text written into [#state-coords]. *)
Definition updateStateDisplay (s : Visualizer) : string :=
  let alphaStr := formatComplex (real (alpha s)) (imag (alpha s)) in
  let betaStr := formatComplex (real (beta s)) (imag (beta s)) in
  "|ψ⟩ = " ++ alphaStr ++ "|0⟩ + (" ++ betaStr ++ ")|1⟩".

(** [updateProbabilities()]: the two probabilities it displays. *)
Definition updateProbabilities (s : Visualizer) : number * number :=
  let prob0 := (Math.cos (theta s / 2) ** 2)%js in
  let prob1 := (Math.sin (theta s / 2) ** 2)%js in
  (prob0, prob1).

(** The body of the closure [animate], run at time [now = Date.now()]. *)
Definition animate (a : Animation) (now : R) (s : Visualizer) : Visualizer :=
  let elapsed := (Num now - Num (startTime a))%js in
  let progress := Math.min (elapsed / duration a) 1 in
  let eased := (1 - Math.pow (1 - progress) 3)%js in
  let s := setTheta (startTheta a + (targetTheta a - startTheta a) * eased)%js s in
  let s := setPhi (startPhi a + (targetPhi a - startPhi a) * eased)%js s in
  if (progress <? 1)%js then requestAnimationFrame a s
  else setIsAnimating false s.

(** [animateToState(targetTheta, targetPhi, duration = 1000)], called at
    time [now = Date.now()]. *)
Definition animateToState (targetTheta targetPhi : number) (duration : number)
    (now : R) (s : Visualizer) : Visualizer :=
  if isAnimating s then s
  else
    let s := setIsAnimating true s in
    let startTheta := theta s in
    let startPhi := phi s in
    let startTime := now in
    requestAnimationFrame
      (mkAnimation startTheta startPhi startTime targetTheta targetPhi duration) s.

(** The default value of the parameter [duration]; no caller passes one. *)
Definition defaultDuration : number := 1000.

(** The table [states] of [setPresetState]. *)
Definition states : list (string * (number * number)) :=
  [ ("ground", (Num 0, Num 0));
    ("excited", (Math.PI, Num 0));
    ("plus", ((Math.PI / 2)%js, Num 0));
    ("minus", ((Math.PI / 2)%js, Math.PI));
    ("right", ((Math.PI / 2)%js, (Math.PI / 2)%js));
    ("left", ((Math.PI / 2)%js, (3 * Math.PI / 2)%js)) ].

(** [setPresetState(state)].  [states[state]] is truthy for an own entry and
    for an inherited member; an inherited member has no [theta] and no [phi],
    so both arguments are [undefined], which [targetTheta - startTheta] turns
    into NaN. *)
Definition setPresetState (state : string) (now : R) (s : Visualizer)
  : Visualizer :=
  match getProperty states state with
  | Own (theta, phi) => animateToState theta phi defaultDuration now s
  | Inherited _ => animateToState NaN NaN defaultDuration now s
  | Undefined => s
  end.

Definition applyPauliX (now : R) (s : Visualizer) : Visualizer :=
  let newTheta := (Math.PI - theta s)%js in
  let newPhi := ((phi s + Math.PI) mod (2 * Math.PI))%js in
  animateToState newTheta newPhi defaultDuration now s.

Definition applyPauliY (now : R) (s : Visualizer) : Visualizer :=
  let newTheta := (Math.PI - theta s)%js in
  let newPhi := ((Math.PI - phi s) mod (2 * Math.PI))%js in
  let newPhi := if (newPhi <? 0)%js then (newPhi + 2 * Math.PI)%js else newPhi in
  animateToState newTheta newPhi defaultDuration now s.

Definition applyPauliZ (now : R) (s : Visualizer) : Visualizer :=
  let newPhi := ((phi s + Math.PI) mod (2 * Math.PI))%js in
  animateToState (theta s) newPhi defaultDuration now s.

Definition applyHadamard (now : R) (s : Visualizer) : Visualizer :=
  if (Math.abs (theta s) <? 1e-10)%js then
    animateToState (Math.PI / 2)%js 0 defaultDuration now s
  else if (Math.abs (theta s - Math.PI) <? 1e-10)%js then
    animateToState (Math.PI / 2)%js Math.PI defaultDuration now s
  else
    let x := (Math.sin (theta s) * Math.cos (phi s))%js in
    let y := (Math.sin (theta s) * Math.sin (phi s))%js in
    let z := Math.cos (theta s) in
    let x2 := z in
    let y2 := (- y)%js in
    let z2 := x in
    let newTheta := Math.acos z2 in
    let newPhi := Math.atan2 y2 x2 in
    let newPhi := if (newPhi <? 0)%js then (newPhi + 2 * Math.PI)%js else newPhi in
    animateToState newTheta newPhi defaultDuration now s.

(** How a call completes: normally, or by an uncaught TypeError. *)
Inductive completion : Type := Returns | Throws.

(** The table [gates] of [applyQuantumGate]. *)
Definition gates : list (string * (R -> Visualizer -> Visualizer)) :=
  [ ("x", applyPauliX); ("y", applyPauliY);
    ("z", applyPauliZ); ("h", applyHadamard) ].

(** [applyQuantumGate(gate)].  An inherited member of [gates] is truthy and
    gets called (with [gates] as its receiver); none of them touches the
    visualizer. *)
Definition applyQuantumGate (gate : string) (now : R) (s : Visualizer)
  : completion * Visualizer :=
  match getProperty gates gate with
  | Own method => (Returns, method now s)
  | Inherited name => (if throwsWhenCalled name then Throws else Returns, s)
  | Undefined => (Returns, s)
  end.

(** [performMeasurement()] only arms a timer; the measurement happens in
    its callback, a second later. *)
Definition performMeasurement (s : Visualizer) : Visualizer :=
  setMeasureTimeouts (S (measureTimeouts s)) s.

(** The callback of that timer, run at time [now] with [sample =
    Math.random()]; the result is the [measurement] it reports. *)
Definition measurementCallback (sample : number) (now : R) (s : Visualizer)
  : number * Visualizer :=
  let prob0 := (Math.cos (theta s / 2) ** 2)%js in
  let measurement : number := if (sample <? prob0)%js then 0 else 1 in
  if JS.strictEq measurement 0 then
    (measurement, animateToState 0 0 defaultDuration now s)
  else
    (measurement, animateToState Math.PI 0 defaultDuration now s).

Definition resetState (now : R) (s : Visualizer) : Visualizer :=
  animateToState 0 0 defaultDuration now s.

(** ** The event loop

    What can happen to a visualizer: the listeners registered by
    [setupEventListeners], a rendered frame (the browser runs the callbacks
    registered with [requestAnimationFrame] since the last one) and the
    expiry of a measurement timer. *)

Definition frame (now : R) (s : Visualizer) : Visualizer :=
  fold_left (fun st a => animate a now st) (animationFrames s)
    (clearAnimationFrames s).

(** Several frames in a row, at the given clock readings. *)
Definition frames (times : list R) (s : Visualizer) : Visualizer :=
  fold_left (fun st t => frame t st) times s.

Definition measureTimeout (sample : number) (now : R) (s : Visualizer)
  : Visualizer :=
  match measureTimeouts s with
  | O => s
  | S n => snd (measurementCallback sample now (setMeasureTimeouts n s))
  end.

Inductive event : Type :=
| ThetaSlider (value : number)
| PhiSlider (value : number)
| PresetClick (state : string) (now : R)
| GateClick (gate : string) (now : R)
| MeasureClick
| MeasureTimeout (sample : number) (now : R)
| ResetClick (now : R)
| Frame (now : R).

Definition step (s : Visualizer) (e : event) : Visualizer :=
  match e with
  | ThetaSlider v => thetaSliderInput v s
  | PhiSlider v => phiSliderInput v s
  | PresetClick state now => setPresetState state now s
  | GateClick gate now => snd (applyQuantumGate gate now s)
  | MeasureClick => performMeasurement s
  | MeasureTimeout sample now => measureTimeout sample now s
  | ResetClick now => resetState now s
  | Frame now => frame now s
  end.

(** The states a session can be in: the constructor's, then any events. *)
Definition run (events : list event) : Visualizer :=
  fold_left step events constructor.

Inductive reachable : Visualizer -> Prop :=
| reachable_init : reachable constructor
| reachable_step s e : reachable s -> reachable (step s e).

(** ** The complex number utilities at the top of the file

    [complex], [add], [sub], [mul], [scale], [abs] and [arg] work on object
    literals [{ re, im }]. *)

Module MathExt.

(** [Math.sqrt(x)] is NaN for a negative [x]. *)
Definition sqrt (a : number) : number :=
  match a with
  | Num x => if Rltb x 0 then NaN else Num (R_sqrt.sqrt x)
  | NaN => NaN
  end.

End MathExt.

Module ComplexUtil.

Record object : Type := mk { re : number; im : number }.

Definition complex (re im : number) : object := mk re im.

Definition add (c1 c2 : object) : object :=
  mk (re c1 + re c2)%js (im c1 + im c2)%js.

Definition sub (c1 c2 : object) : object :=
  mk (re c1 - re c2)%js (im c1 - im c2)%js.

Definition mul (c1 c2 : object) : object :=
  mk (re c1 * re c2 - im c1 * im c2)%js
     (re c1 * im c2 + im c1 * re c2)%js.

Definition scale (c : object) (s : number) : object :=
  mk (re c * s)%js (im c * s)%js.

Definition abs (c : object) : number :=
  MathExt.sqrt (re c * re c + im c * im c)%js.

Definition arg (c : object) : number := Math.atan2 (im c) (re c).

End ComplexUtil.

(** ** What the visualizer shows *)

Module THREE.

Record Vector3 : Type := mkVector3 { x : number; y : number; z : number }.

End THREE.

(** [updateQuantumState()]: where it puts the state vector arrow
    ([stateVector.position.set]), the point it turns it towards
    ([stateVector.lookAt]), and what [updateStateDisplay] and
    [updateProbabilities] then show.  Bloch X is scene Z, Bloch Y is scene X
    and Bloch Z is scene Y. *)
Record Rendering : Type := mkRendering {
  position : THREE.Vector3;
  lookAt : THREE.Vector3;
  stateCoords : string;
  probabilities : number * number
}.

Definition updateQuantumState (s : Visualizer) : Rendering :=
  let x := (Math.sin (theta s) * Math.cos (phi s))%js in
  let y := (Math.sin (theta s) * Math.sin (phi s))%js in
  let z := Math.cos (theta s) in
  let sx := y in
  let sy := z in
  let sz := x in
  mkRendering
    (THREE.mkVector3 (sx * 0.5)%js (sy * 0.5)%js (sz * 0.5)%js)
    (THREE.mkVector3 sx sy sz)
    (updateStateDisplay s)
    (updateProbabilities s).

(** [updateSliders()]: the values it gives the two sliders and the texts it
    writes next to them. *)
Record Sliders : Type := mkSliders {
  thetaSliderValue : number;
  phiSliderValue : number;
  thetaValueText : string;
  phiValueText : string
}.

Definition updateSliders (s : Visualizer) : Sliders :=
  let thetaDegrees := ((theta s * 180) / Math.PI)%js in
  let phiDegrees := ((phi s * 180) / Math.PI)%js in
  mkSliders thetaDegrees phiDegrees
    (toFixed thetaDegrees 0 ++ "°") (toFixed phiDegrees 0 ++ "°").

(** * The same methods on doubles

    The running code computes with IEEE 754 binary64 numbers: [Math.PI] is
    the double nearest to PI and every [+], [-], [*], [/] rounds to nearest,
    ties to even.  Here the numbers are Rocq's primitive binary64 floats,
    whose operations are those of IEEE 754, as ECMAScript's are; [%] is the
    exact remainder of the truncated division.

    [Math.cos] and [**] are "implementation-approximated" in ECMAScript:
    the language fixes them only at special arguments, and their values
    belong to the engine.  The measurement callback, which calls both, takes
    the engine's two functions as a parameter. *)

Module Double.

Local Open Scope float_scope.

Module Math.

(** [Math.PI]: 3.141592653589793, the double nearest to PI. *)
Definition PI : float := 0x1.921fb54442d18p+1.

End Math.

(** [a % b]: NaN when [a] is infinite or [b] is zero, [a] when [b] is
    infinite or [a] is zero, and otherwise [a - b * trunc(a / b)] computed
    exactly; the result has the sign of [a] and is a double. *)
Definition rem (a b : float) : float :=
  match FloatOps.Prim2SF a, FloatOps.Prim2SF b with
  | SpecFloat.S754_nan, _ | _, SpecFloat.S754_nan => nan
  | SpecFloat.S754_infinity _, _ => nan
  | _, SpecFloat.S754_zero _ => nan
  | _, SpecFloat.S754_infinity _ => a
  | SpecFloat.S754_zero _, _ => a
  | SpecFloat.S754_finite sa ma ea, SpecFloat.S754_finite _ mb eb =>
      let e := Z.min ea eb in
      let x := (Zpos ma * 2 ^ (ea - e))%Z in
      let y := (Zpos mb * 2 ^ (eb - e))%Z in
      let r := FloatOps.Z.ldexp (of_uint63 (Uint63.of_Z (Z.rem x y))) e in
      if sa then - r else r
  end.

(** What the engine computes for [Math.cos(x)] and for [base ** exponent]. *)
Record Engine : Type := mkEngine {
  cos : float -> float;
  pow : float -> float -> float
}.

Record Animation : Type := mkAnimation {
  startTheta : float;
  startPhi : float;
  startTime : float;
  targetTheta : float;
  targetPhi : float;
  duration : float
}.

Record Visualizer : Type := mkVisualizer {
  theta : float;                        (* this.theta *)
  phi : float;                          (* this.phi *)
  isAnimating : bool;                   (* this.isAnimating *)
  animationFrames : list Animation;     (* callbacks waiting for the next frame *)
  measureTimeouts : nat                 (* measurement callbacks waiting in setTimeout *)
}.

Definition constructor : Visualizer := mkVisualizer 0 0 false [] 0%nat.

Definition setTheta (v : float) (s : Visualizer) : Visualizer :=
  mkVisualizer v (phi s) (isAnimating s) (animationFrames s) (measureTimeouts s).

Definition setPhi (v : float) (s : Visualizer) : Visualizer :=
  mkVisualizer (theta s) v (isAnimating s) (animationFrames s) (measureTimeouts s).

Definition setIsAnimating (b : bool) (s : Visualizer) : Visualizer :=
  mkVisualizer (theta s) (phi s) b (animationFrames s) (measureTimeouts s).

Definition requestAnimationFrame (a : Animation) (s : Visualizer) : Visualizer :=
  mkVisualizer (theta s) (phi s) (isAnimating s) (animationFrames s ++ [a])
    (measureTimeouts s).

(** The two slider listeners; [value] is [parseFloat(e.target.value)]. *)
Definition thetaSliderInput (value : float) (s : Visualizer) : Visualizer :=
  setTheta ((value * Math.PI) / 180) s.

Definition phiSliderInput (value : float) (s : Visualizer) : Visualizer :=
  setPhi ((value * Math.PI) / 180) s.

Definition animateToState (targetTheta targetPhi : float) (duration : float)
    (now : float) (s : Visualizer) : Visualizer :=
  if isAnimating s then s
  else
    let s := setIsAnimating true s in
    let startTheta := theta s in
    let startPhi := phi s in
    let startTime := now in
    requestAnimationFrame
      (mkAnimation startTheta startPhi startTime targetTheta targetPhi duration) s.

Definition defaultDuration : float := 1000.

Definition applyPauliX (now : float) (s : Visualizer) : Visualizer :=
  let newTheta := Math.PI - theta s in
  let newPhi := rem (phi s + Math.PI) (2 * Math.PI) in
  animateToState newTheta newPhi defaultDuration now s.

Definition applyPauliY (now : float) (s : Visualizer) : Visualizer :=
  let newTheta := Math.PI - theta s in
  let newPhi := rem (Math.PI - phi s) (2 * Math.PI) in
  let newPhi := if newPhi <? 0 then newPhi + 2 * Math.PI else newPhi in
  animateToState newTheta newPhi defaultDuration now s.

Definition applyPauliZ (now : float) (s : Visualizer) : Visualizer :=
  let newPhi := rem (phi s + Math.PI) (2 * Math.PI) in
  animateToState (theta s) newPhi defaultDuration now s.

(** The callback of the measurement timer, run at time [now] with [sample =
    Math.random()]; the result is the [measurement] it reports. *)
Definition measurementCallback (engine : Engine) (sample : float) (now : float)
    (s : Visualizer) : float * Visualizer :=
  let prob0 := pow engine (cos engine (theta s / 2)) 2 in
  let measurement : float := if sample <? prob0 then 0 else 1 in
  if measurement =? 0 then
    (measurement, animateToState 0 0 defaultDuration now s)
  else
    (measurement, animateToState Math.PI 0 defaultDuration now s).

End Double.

(** * Vocabulary of the properties *)

Definition idle (s : Visualizer) : Prop :=
  isAnimating s = false /\ animationFrames s = [].

Definition inFlight (s : Visualizer) : Prop :=
  isAnimating s = true /\ exists a, animationFrames s = [a].

Definition oneTransition (s : Visualizer) : Prop := idle s \/ inFlight s.

(** What the code computes as [progress] and [eased] at time [now]. *)
Definition progressAt (startTime d now : R) : R := Rmin ((now - startTime) / d) 1.

Definition easeOut (progress : R) : R := 1 - (1 - progress) ^ 3.

(** The progress of the specification:
    [clamp((now - startTime) / durationMs, 0, 1)]. *)
Definition clampedProgressAt (startTime d now : R) : R :=
  Rmax 0 (Rmin ((now - startTime) / d) 1).

Definition thetaInRange (t : number) : Prop :=
  match t with
  | Num x => 0 <= x <= PI
  | NaN => False
  end.

Definition phiInRange (p : number) : Prop :=
  match p with
  | Num x => 0 <= x < 2 * PI
  | NaN => False
  end.

Definition anglesInRange (s : Visualizer) : Prop :=
  thetaInRange (theta s) /\ phiInRange (phi s).

(** The range of phi with its upper end: the phi slider stores 2 PI at 360
    degrees, and in doubles a negative angle below half a unit in the last
    place of 2 PI is rounded to 2 PI when 2 PI is added to it. *)
Definition phiInClosedRange (p : number) : Prop :=
  match p with
  | Num x => 0 <= x <= 2 * PI
  | NaN => False
  end.

Definition anglesInClosedRange (s : Visualizer) : Prop :=
  thetaInRange (theta s) /\ phiInClosedRange (phi s).

(** [a] is within [tol] of [b]. *)
Definition near (tol a b : R) : Prop := Rabs (a - b) <= tol.

(** Two angles of [0, 2 PI] are within [tol] of each other modulo 2 PI:
    directly, or across the seam at 0 = 2 PI. *)
Definition nearOnCircle (tol a b : R) : Prop :=
  Rabs (a - b) <= tol \/ 2 * PI - tol <= Rabs (a - b).

Definition prob0 (t : R) : R := cos (t / 2) ^ 2.

(** [(phi + PI) % (2 PI)] for phi in [0, 2 PI). *)
Definition halfTurn (p : R) : R := if Rltb p PI then p + PI else p - PI.

(** [(PI - phi) % (2 PI)], plus 2 PI when negative, for phi in [0, 2 PI). *)
Definition mirror (p : R) : R := if Rltb (PI - p) 0 then PI - p + 2 * PI else PI - p.

(** [if (newPhi < 0) newPhi += 2 * Math.PI] *)
Definition wrap (a : R) : R := if Rltb a 0 then a + 2 * PI else a.

(** The angles [applyHadamard] computes away from the poles. *)
Definition hadamardTheta (t p : R) : R := acos (sin t * cos p).

Definition hadamardPhi (t p : R) : R :=
  wrap (Math.Ratan2 (- (sin t * sin p)) (cos t)).

(** [theta] is one of the two special cases of [applyHadamard]. *)
Definition nearPole (t : R) : Prop := Rabs t < 1e-10 \/ Rabs (t - PI) < 1e-10.

(** [applyHadamard] takes one of its two special cases in state [s]. *)
Definition hadamardSpecialCase (s : Visualizer) : bool :=
  (Math.abs (theta s) <? 1e-10)%js || (Math.abs (theta s - Math.PI) <? 1e-10)%js.

Inductive operation : Type :=
| Gate (gate : string)
| Preset (state : string).

Definition perform (op : operation) (now : R) (s : Visualizer) : Visualizer :=
  match op with
  | Gate gate => snd (applyQuantumGate gate now s)
  | Preset state => setPresetState state now s
  end.

Definition gateIds : list string := ["x"; "y"; "z"; "h"].

Definition presetIds : list string :=
  ["ground"; "excited"; "plus"; "minus"; "right"; "left"].

Definition supported (op : operation) : Prop :=
  match op with
  | Gate gate => In gate gateIds
  | Preset state => In state presetIds
  end.

(** The state of a transition under way: the callback of a transition
    between two angle pairs in range, started at [now], is waiting and the
    angles are in range; or the transition is over and the animator idle.
    The range of phi is the closed one. *)
Definition onTheWay (now : R) (s : Visualizer) : Prop :=
  anglesInClosedRange s /\
  (idle s \/
   isAnimating s = true /\
   exists st sp tt tp : R,
     animationFrames s = [mkAnimation st sp now tt tp 1000] /\
     0 <= st <= PI /\ 0 <= sp <= 2 * PI /\ 0 <= tt <= PI /\ 0 <= tp <= 2 * PI).


(** A visualizer at rest at the given angles. *)
Definition atRest (t p : R) (s : Visualizer) : Prop :=
  theta s = Num t /\ phi s = Num p /\ idle s.

(** An event a session can see at clock reading [clock]: slider values
    within the sliders' ranges of degrees (0 to 180 and 0 to 360, ends
    included), no identifier that names a member of [Object.prototype], and
    a clock that does not run backwards. *)
Definition eventInOrder (clock : R) (e : event) : Prop :=
  match e with
  | ThetaSlider v => exists d : R, v = Num d /\ 0 <= d <= 180
  | PhiSlider v => exists d : R, v = Num d /\ 0 <= d <= 360
  | PresetClick state now => ~ In state Object_prototype /\ clock <= now
  | GateClick _ now => clock <= now
  | MeasureClick => True
  | MeasureTimeout _ now => clock <= now
  | ResetClick now => clock <= now
  | Frame now => clock <= now
  end.

Definition clockAfter (clock : R) (e : event) : R :=
  match e with
  | ThetaSlider _ | PhiSlider _ | MeasureClick => clock
  | PresetClick _ now | GateClick _ now | MeasureTimeout _ now
  | ResetClick now | Frame now => now
  end.

Fixpoint chronological (clock : R) (events : list event) : Prop :=
  match events with
  | [] => True
  | e :: rest => eventInOrder clock e /\ chronological (clockAfter clock e) rest
  end.

(** The invariant of such a session: the angles are in range and the
    transition under way, if any, started no later than [clock]. *)
Definition inSession (clock : R) (s : Visualizer) : Prop :=
  exists t0 : R, t0 <= clock /\ onTheWay t0 s.

(** An event whose slider value, if any, is a number of magnitude at most
    1e300 (its conversion to radians cannot overflow a double), whose preset
    identifier does not name a member of [Object.prototype], and whose clock
    reading is not before [clock]. *)
Definition eventNumeric (clock : R) (e : event) : Prop :=
  match e with
  | ThetaSlider v | PhiSlider v => exists d : R, v = Num d /\ Rabs d <= 1e300
  | PresetClick state now => ~ In state Object_prototype /\ clock <= now
  | GateClick _ now | MeasureTimeout _ now | ResetClick now | Frame now =>
      clock <= now
  | MeasureClick => True
  end.

Fixpoint allNumeric (clock : R) (events : list event) : Prop :=
  match events with
  | [] => True
  | e :: rest => eventNumeric clock e /\ allNumeric (clockAfter clock e) rest
  end.

(** Both angles are numbers, and so is everything the waiting callback
    captured. *)
Definition numeric (s : Visualizer) : Prop :=
  (exists t p : R, theta s = Num t /\ phi s = Num p) /\
  (idle s \/
   isAnimating s = true /\
   exists st sp t0 tt tp : R,
     animationFrames s = [mkAnimation st sp t0 tt tp 1000]).

(** [n] is printed by [toFixed(3)] as one digit, a point and three digits. *)
Definition wellFormatted (n : nat) : bool :=
  Nat.eqb (String.length (fixedDigits (Z.of_nat n) 3)) 5
  && match String.get 1 (fixedDigits (Z.of_nat n) 3) with
     | Some c => Ascii.eqb c "."
     | None => false
     end.

(** * Properties *)

(** ** Comparisons of the model *)

Lemma Rltb_true (x y : R) : x < y -> Rltb x y = true.
Proof. intros H. unfold Rltb. destruct (Rlt_dec x y); [reflexivity | contradiction]. Qed.

Lemma Rltb_false (x y : R) : y <= x -> Rltb x y = false.
Proof. intros H. unfold Rltb. destruct (Rlt_dec x y); [lra | reflexivity]. Qed.


Lemma Reqb_false (x y : R) : x <> y -> Reqb x y = false.
Proof. intros H. unfold Reqb. destruct (Req_dec_T x y); [contradiction | reflexivity]. Qed.

(** ** The animator: one transition at a time *)

Lemma animateToState_busy tT tP d now s :
  isAnimating s = true -> animateToState tT tP d now s = s.
Proof. intros H. unfold animateToState. rewrite H. reflexivity. Qed.

Lemma animateToState_idle tT tP d now s :
  isAnimating s = false ->
  animateToState tT tP d now s =
  mkVisualizer (theta s) (phi s) true
    (animationFrames s ++ [mkAnimation (theta s) (phi s) now tT tP d])
    (measureTimeouts s).
Proof. intros H. unfold animateToState. rewrite H. reflexivity. Qed.

Lemma animateToState_oneTransition tT tP d now s :
  oneTransition s -> oneTransition (animateToState tT tP d now s).
Proof.
  intros [[Hi Hf] | [Hb Hf]].
  - right. rewrite animateToState_idle by assumption. split; [reflexivity |].
    simpl. rewrite Hf. eexists. reflexivity.
  - rewrite animateToState_busy by assumption. right. split; assumption.
Qed.

Lemma animate_oneTransition a now s :
  isAnimating s = true -> animationFrames s = [] ->
  oneTransition (animate a now s).
Proof.
  intros Hb Hf. unfold animate.
  destruct (JS.lt _ _).
  - right. unfold inFlight. simpl. rewrite Hb, Hf.
    split; [reflexivity | eexists; reflexivity].
  - left. unfold idle. simpl. rewrite Hf. split; reflexivity.
Qed.

Lemma frame_oneTransition now s : oneTransition s -> oneTransition (frame now s).
Proof.
  intros [[Hi Hf] | [Hb [a Hf]]]; unfold frame; rewrite Hf; simpl.
  - left. split; [exact Hi | reflexivity].
  - apply animate_oneTransition; [exact Hb | reflexivity].
Qed.

Lemma setPresetState_oneTransition state now s :
  oneTransition s -> oneTransition (setPresetState state now s).
Proof.
  intros H. unfold setPresetState.
  destruct (getProperty states state) as [[t p] | name |];
    auto using animateToState_oneTransition.
Qed.

Lemma gate_oneTransition now s :
  oneTransition s ->
  oneTransition (applyPauliX now s) /\ oneTransition (applyPauliY now s) /\
  oneTransition (applyPauliZ now s) /\ oneTransition (applyHadamard now s).
Proof.
  intros H. unfold applyPauliX, applyPauliY, applyPauliZ, applyHadamard.
  repeat split; repeat (destruct (JS.lt _ _));
    auto using animateToState_oneTransition.
Qed.

Lemma ownProperty_gates gate method :
  ownProperty gates gate = Some method ->
  method = applyPauliX \/ method = applyPauliY \/
  method = applyPauliZ \/ method = applyHadamard.
Proof.
  unfold gates. cbn [ownProperty].
  repeat (destruct (String.eqb _ gate); [intros [= <-]; auto |]).
  discriminate.
Qed.

Lemma applyQuantumGate_oneTransition gate now s :
  oneTransition s -> oneTransition (snd (applyQuantumGate gate now s)).
Proof.
  intros H. unfold applyQuantumGate, getProperty.
  destruct (ownProperty gates gate) as [method |] eqn:E.
  - simpl. destruct (gate_oneTransition now s H) as (Hx & Hy & Hz & Hh).
    destruct (ownProperty_gates _ _ E) as [-> | [-> | [-> | ->]]]; assumption.
  - destruct (existsb _ _); simpl; assumption.
Qed.

Lemma measureTimeout_oneTransition sample now s :
  oneTransition s -> oneTransition (measureTimeout sample now s).
Proof.
  intros H. unfold measureTimeout.
  destruct (measureTimeouts s) as [| n]; [assumption |].
  unfold measurementCallback.
  destruct (JS.strictEq _ _); simpl; apply animateToState_oneTransition;
    exact H.
Qed.

(** In every state of a session the animator is idle with no callback
    waiting, or animating with exactly one. *)
Lemma reachable_oneTransition s : reachable s -> oneTransition s.
Proof.
  induction 1 as [| s e _ IH].
  - left. split; reflexivity.
  - destruct e; simpl.
    + exact IH.
    + exact IH.
    + apply setPresetState_oneTransition, IH.
    + apply applyQuantumGate_oneTransition, IH.
    + exact IH.
    + apply measureTimeout_oneTransition, IH.
    + apply animateToState_oneTransition, IH.
    + apply frame_oneTransition, IH.
Qed.

Lemma run_reachable events : reachable (run events).
Proof.
  unfold run. generalize constructor, reachable_init.
  induction events as [| e events IH]; intros s Hs; simpl.
  - exact Hs.
  - apply IH. constructor. exact Hs.
Qed.

(** C1.  A transition requested while the animator is animating is dropped:
    [animateToState] returns the visualizer as it was, so the angles, the
    [isAnimating] flag and the waiting callback with its start point, target
    and start time are unchanged and no second callback is registered; in a
    session exactly one callback is then waiting, the one already in flight. *)
Theorem animateToState_rejected_while_animating
    (s : Visualizer) (targetTheta targetPhi duration : number) (now : R) :
  isAnimating s = true ->
  animateToState targetTheta targetPhi duration now s = s /\
  (reachable s ->
   exists a, animationFrames (animateToState targetTheta targetPhi duration now s) = [a]).
Proof.
  intros Hb. split.
  - apply animateToState_busy, Hb.
  - intros Hr. rewrite animateToState_busy by exact Hb.
    destruct (reachable_oneTransition s Hr) as [[Hi _] | [_ Ha]].
    + congruence.
    + exact Ha.
Qed.

Lemma animateToState_rejected_witness :
  let s := step constructor (GateClick "x" 0) in
  isAnimating s = true /\
  animateToState 0 0 defaultDuration 250 s = s /\
  (reachable s ->
   exists a, animationFrames (animateToState 0 0 defaultDuration 250 s) = [a]).
Proof.
  split; [reflexivity |].
  apply (animateToState_rejected_while_animating
           (step constructor (GateClick "x" 0)) 0 0 defaultDuration 250).
  reflexivity.
Defined.

(** ** One frame of an animation *)

Lemma div_Num (x y : R) : y <> 0 -> (Num x / Num y)%js = Num (x / y).
Proof. intros H. unfold JS.div. rewrite Reqb_false by exact H. reflexivity. Qed.

Lemma animate_Num (s : Visualizer) (now t0 st sp tt tp d : R) :
  d <> 0 ->
  let a := mkAnimation st sp t0 tt tp d in
  let eased := easeOut (progressAt t0 d now) in
  animate a now s =
  if Rltb (progressAt t0 d now) 1 then
    mkVisualizer (st + (tt - st) * eased) (sp + (tp - sp) * eased)
      (isAnimating s) (animationFrames s ++ [a]) (measureTimeouts s)
  else
    mkVisualizer (st + (tt - st) * eased) (sp + (tp - sp) * eased)
      false (animationFrames s) (measureTimeouts s).
Proof.
  intros Hd a eased. unfold animate. subst a. cbn [startTime duration
    startTheta startPhi targetTheta targetPhi].
  cbn [JS.sub JS.lift2]. rewrite div_Num by exact Hd.
  unfold Math.min, Math.pow. cbn [JS.lift2 JS.sub JS.pow JS.lift1 JS.mul JS.add JS.lt].
  fold (progressAt t0 d now). fold (easeOut (progressAt t0 d now)). fold eased.
  destruct (Rltb (progressAt t0 d now) 1); reflexivity.
Qed.

Lemma progressAt_le_1 (t0 d now : R) : progressAt t0 d now <= 1.
Proof. apply Rmin_r. Qed.

Lemma progressAt_nonneg (t0 d now : R) :
  0 < d -> t0 <= now -> 0 <= progressAt t0 d now.
Proof.
  intros Hd Ht. unfold progressAt. apply Rmin_glb; [| lra].
  apply Rmult_le_pos; [lra |]. left. apply Rinv_0_lt_compat, Hd.
Qed.

Lemma progressAt_negative (t0 d now : R) :
  0 < d -> now < t0 -> progressAt t0 d now < 0.
Proof.
  intros Hd Ht. unfold progressAt.
  apply Rle_lt_trans with ((now - t0) / d); [apply Rmin_l |].
  assert (0 < (t0 - now) * / d)
    by (apply Rmult_lt_0_compat; [lra | apply Rinv_0_lt_compat, Hd]).
  unfold Rdiv. replace ((now - t0) * / d) with (- ((t0 - now) * / d)) by ring.
  lra.
Qed.

Lemma progressAt_done (t0 d now : R) :
  0 < d -> t0 + d <= now -> progressAt t0 d now = 1.
Proof.
  intros Hd Ht. unfold progressAt. apply Rmin_right.
  apply Rmult_le_reg_r with d; [exact Hd |]. unfold Rdiv.
  rewrite Rmult_assoc, Rinv_l by lra. lra.
Qed.

Lemma easeOut_1 : easeOut 1 = 1.
Proof. unfold easeOut. ring. Qed.

(** C6 (as amended).  A frame at time [now] computes
    [progress = min((now - startTime) / duration, 1)]: at most 1, at least 0
    when [now] does not precede [startTime] and negative when it does, there
    being no lower clamp.  It applies
    [eased = 1 - (1 - progress)^3] and writes
    [theta = startTheta + (targetTheta - startTheta) * eased], [phi] likewise,
    linearly in the raw angles.  While [progress < 1] the callback registers
    itself again and the animator stays as it is; once [progress >= 1] it
    clears [isAnimating] and registers nothing. *)
Theorem animate_frame
    (s : Visualizer) (now t0 st sp tt tp d : R) :
  0 < d ->
  let a := mkAnimation st sp t0 tt tp d in
  let progress := progressAt t0 d now in
  let eased := easeOut progress in
  progress <= 1 /\
  (t0 <= now -> 0 <= progress) /\
  (now < t0 -> progress < 0) /\
  theta (animate a now s) = Num (st + (tt - st) * eased) /\
  phi (animate a now s) = Num (sp + (tp - sp) * eased) /\
  (progress < 1 ->
   isAnimating (animate a now s) = isAnimating s /\
   animationFrames (animate a now s) = (animationFrames s ++ [a])%list) /\
  (1 <= progress ->
   isAnimating (animate a now s) = false /\
   animationFrames (animate a now s) = animationFrames s).
Proof.
  intros Hd a progress eased.
  assert (Hd0 : d <> 0) by lra.
  pose proof (animate_Num s now t0 st sp tt tp d Hd0) as E.
  cbv zeta in E. fold a progress eased in E.
  split; [apply progressAt_le_1 |].
  split; [apply progressAt_nonneg; assumption |].
  split; [apply progressAt_negative; assumption |].
  destruct (Rlt_dec progress 1) as [Hlt | Hge].
  - rewrite (Rltb_true _ _ Hlt) in E. rewrite E. cbn.
    repeat split; intros; try reflexivity; lra.
  - rewrite Rltb_false in E by lra. rewrite E. cbn.
    repeat split; intros; try reflexivity; lra.
Qed.

Lemma animate_frame_witness :
  0 < 1000 /\
  theta (animate (mkAnimation 0 0 0 PI 0 1000) 500 constructor)
  = Num (0 + (PI - 0) * easeOut (progressAt 0 1000 500)).
Proof.
  assert (H : 0 < 1000) by lra.
  split; [exact H |].
  exact (proj1 (proj2 (proj2 (proj2
    (animate_frame constructor 500 0 0 0 PI 0 1000 H))))).
Defined.

(** C6 as stated fails: the code has no lower clamp.  For a transition from
    (0, 0) to (PI, 0) started at time 1000, a frame whose clock reads 0 has
    progress -1 and writes theta = -7 PI; with the progress clamped at 0 it
    would write the start angle 0. *)
Lemma animate_progress_not_clamped :
  let a := mkAnimation 0 0 1000 PI 0 1000 in
  let s := mkVisualizer 0 0 true [] 0 in
  progressAt 1000 1000 0 = -1 /\
  clampedProgressAt 1000 1000 0 = 0 /\
  theta (animate a 0 s) = Num (-7 * PI) /\
  theta (animate a 0 s) <> Num (0 + (PI - 0) * easeOut (clampedProgressAt 1000 1000 0)).
Proof.
  intros a s.
  assert (Hp : progressAt 1000 1000 0 = -1).
  { unfold progressAt. rewrite Rmin_left; lra. }
  assert (Hc : clampedProgressAt 1000 1000 0 = 0).
  { unfold clampedProgressAt. rewrite Rmin_left by lra. rewrite Rmax_left; lra. }
  assert (H : 1000 <> 0) by lra.
  pose proof (animate_Num s 0 1000 0 0 PI 0 1000 H) as E.
  cbv zeta in E. fold a in E. rewrite Hp in E.
  rewrite Rltb_true in E by lra.
  assert (Ht' : theta (animate a 0 s) = Num (-7 * PI)).
  { rewrite E. cbn [theta]. apply (f_equal Num). unfold easeOut. ring. }
  repeat split; try assumption.
  rewrite Ht', Hc. unfold easeOut. intros [= E'].
  pose proof PI_RGT_0. lra.
Qed.

(** ** The angle ranges of a qubit state *)

Lemma degrees_to_radians (v : R) : (Num v * Math.PI / 180)%js = Num (v * PI / 180).
Proof. unfold Math.PI. cbn [JS.mul JS.lift2]. apply div_Num. lra. Qed.

(** C2 (as amended).  The slider listeners store the slider value converted
    from degrees to radians, [value * PI / 180], as it is: nothing is clamped
    or reduced modulo 2 PI and nothing is rejected.  The stored theta lies in
    [0, PI] exactly when the value lies in [0, 180], and the stored phi in
    [0, 2 PI) exactly when the value lies in [0, 360); the other angle and the
    animator are left alone. *)
Theorem slider_input_stores_radians (value : R) (s : Visualizer) :
  theta (thetaSliderInput value s) = Num (value * PI / 180) /\
  phi (phiSliderInput value s) = Num (value * PI / 180) /\
  (thetaInRange (theta (thetaSliderInput value s)) <-> 0 <= value <= 180) /\
  (phiInRange (phi (phiSliderInput value s)) <-> 0 <= value < 360) /\
  phi (thetaSliderInput value s) = phi s /\
  theta (phiSliderInput value s) = theta s /\
  isAnimating (thetaSliderInput value s) = isAnimating s /\
  isAnimating (phiSliderInput value s) = isAnimating s /\
  animationFrames (thetaSliderInput value s) = animationFrames s /\
  animationFrames (phiSliderInput value s) = animationFrames s.
Proof.
  unfold thetaSliderInput, phiSliderInput. cbn [theta phi setTheta setPhi
    isAnimating animationFrames].
  rewrite degrees_to_radians. cbn [thetaInRange phiInRange].
  pose proof PI_RGT_0 as Hpi.
  repeat split; try reflexivity; intros; nra.
Qed.

(** C2 as stated fails: the theta slider at 270 stores 3 PI / 2, above PI,
    and the phi slider at 360 stores 2 PI, outside [0, 2 PI). *)
Lemma slider_input_not_normalized :
  theta (thetaSliderInput 270 constructor) = Num (270 * PI / 180) /\
  ~ thetaInRange (theta (thetaSliderInput 270 constructor)) /\
  phi (phiSliderInput 360 constructor) = Num (360 * PI / 180) /\
  ~ phiInRange (phi (phiSliderInput 360 constructor)).
Proof.
  unfold thetaSliderInput, phiSliderInput. cbn [theta phi setTheta setPhi].
  rewrite !degrees_to_radians. cbn [thetaInRange phiInRange].
  pose proof PI_RGT_0 as Hpi.
  repeat split; try reflexivity; intros H; lra.
Qed.

(** ** Measurement *)




(** ** The remainder on the ranges the gates use *)

Lemma Int_part_eq (x : R) (z : Z) : IZR z <= x < IZR z + 1 -> Int_part x = z.
Proof. intros H. symmetry. apply Int_part_spec. lra. Qed.

Lemma Rtrunc_small (x : R) : -1 < x < 1 -> Rtrunc x = 0.
Proof.
  intros H. unfold Rtrunc. destruct (Rle_dec 0 x).
  - rewrite (Int_part_eq x 0); [reflexivity | simpl; lra].
  - rewrite (Int_part_eq (- x) 0); [simpl; lra | simpl; lra].
Qed.

Lemma Rtrunc_one (x : R) : 1 <= x < 2 -> Rtrunc x = 1.
Proof.
  intros H. unfold Rtrunc. destruct (Rle_dec 0 x); [| lra].
  rewrite (Int_part_eq x 1); [reflexivity | simpl; lra].
Qed.

Lemma quotient_bounds (x y lo hi : R) :
  0 < y -> lo * y <= x < hi * y -> lo <= x / y < hi.
Proof.
  intros Hy H. assert (E : x / y * y = x) by (field; lra).
  split; nra.
Qed.

Lemma quotient_bounds_lt (x y lo hi : R) :
  0 < y -> lo * y < x < hi * y -> lo < x / y < hi.
Proof.
  intros Hy H. assert (E : x / y * y = x) by (field; lra).
  split; nra.
Qed.

Lemma rem_within (x y : R) : 0 < y -> - y < x < y -> (Num x mod Num y)%js = Num x.
Proof.
  intros Hy H. unfold JS.rem. rewrite Reqb_false by lra.
  rewrite Rtrunc_small; [f_equal; ring |].
  apply quotient_bounds_lt; lra.
Qed.

Lemma rem_once (x y : R) :
  0 < y -> y <= x < 2 * y -> (Num x mod Num y)%js = Num (x - y).
Proof.
  intros Hy H. unfold JS.rem. rewrite Reqb_false by lra.
  rewrite Rtrunc_one; [f_equal; ring |].
  apply quotient_bounds; lra.
Qed.

Lemma two_PI : (2 * Math.PI)%js = Num (2 * PI).
Proof. reflexivity. Qed.

Lemma add_PI_rem (p : R) :
  0 <= p < 2 * PI ->
  ((Num p + Math.PI) mod (2 * Math.PI))%js = Num (halfTurn p).
Proof.
  intros H. pose proof PI_RGT_0 as Hpi. rewrite two_PI.
  unfold Math.PI, halfTurn. cbn [JS.add JS.lift2].
  destruct (Rlt_dec p PI) as [Hlt | Hge].
  - rewrite Rltb_true by exact Hlt. apply rem_within; lra.
  - rewrite Rltb_false by lra. rewrite rem_once by lra. f_equal. ring.
Qed.

Lemma halfTurn_range (p : R) : 0 <= p < 2 * PI -> 0 <= halfTurn p < 2 * PI.
Proof.
  intros H. pose proof PI_RGT_0 as Hpi. unfold halfTurn.
  destruct (Rlt_dec p PI).
  - rewrite Rltb_true by assumption. lra.
  - rewrite Rltb_false by lra. lra.
Qed.

Lemma halfTurn_involutive (p : R) : 0 <= p < 2 * PI -> halfTurn (halfTurn p) = p.
Proof.
  intros H. pose proof PI_RGT_0 as Hpi. unfold halfTurn.
  destruct (Rlt_dec p PI).
  - rewrite (Rltb_true p) by assumption. rewrite Rltb_false by lra. ring.
  - rewrite (Rltb_false p) by lra. rewrite Rltb_true by lra. ring.
Qed.

Lemma sub_PI_rem (p : R) :
  0 <= p < 2 * PI ->
  (let newPhi := ((Math.PI - Num p) mod (2 * Math.PI))%js in
   if (newPhi <? 0)%js then (newPhi + 2 * Math.PI)%js else newPhi)
  = Num (mirror p).
Proof.
  intros H. pose proof PI_RGT_0 as Hpi. rewrite two_PI.
  unfold Math.PI, mirror. cbn [JS.sub JS.lift2].
  rewrite rem_within by lra. cbv zeta. cbn [JS.lt].
  destruct (Rltb (PI - p) 0); reflexivity.
Qed.

Lemma mirror_range (p : R) : 0 <= p < 2 * PI -> 0 <= mirror p < 2 * PI.
Proof.
  intros H. pose proof PI_RGT_0 as Hpi. unfold mirror.
  destruct (Rlt_dec (PI - p) 0).
  - rewrite Rltb_true by assumption. lra.
  - rewrite Rltb_false by lra. lra.
Qed.

Lemma mirror_involutive (p : R) : 0 <= p < 2 * PI -> mirror (mirror p) = p.
Proof.
  intros H. pose proof PI_RGT_0 as Hpi. unfold mirror.
  destruct (Rlt_dec (PI - p) 0).
  - rewrite (Rltb_true (PI - p)) by assumption. rewrite Rltb_true by lra. ring.
  - rewrite (Rltb_false (PI - p)) by lra. rewrite Rltb_false by lra. ring.
Qed.

(** ** A requested transition, run to its end *)

Lemma frames_app (times1 times2 : list R) (s : Visualizer) :
  frames (times1 ++ times2) s = frames times2 (frames times1 s).
Proof. unfold frames. apply fold_left_app. Qed.

(** One frame of a transition under way: it stays under way, or it is over
    with the angles at the target; at or after [startTime + duration] it is
    over. *)
Lemma frame_under_way (th ph : number) (st sp tt tp now t : R) (n : nat) :
  let a := mkAnimation st sp now tt tp 1000 in
  (exists th' ph', frame t (mkVisualizer th ph true [a] n)
                   = mkVisualizer th' ph' true [a] n) \/
  frame t (mkVisualizer th ph true [a] n) = mkVisualizer tt tp false [] n.
Proof.
  intros a. unfold frame.
  cbn [animationFrames fold_left clearAnimationFrames theta phi isAnimating
       measureTimeouts].
  assert (Hd : 1000 <> 0) by lra.
  rewrite (animate_Num _ t now st sp tt tp 1000 Hd). fold a.
  cbn [animationFrames isAnimating measureTimeouts app].
  destruct (Rlt_dec (progressAt now 1000 t) 1) as [Hlt | Hge].
  - left. rewrite Rltb_true by exact Hlt. eexists. eexists. reflexivity.
  - right. rewrite Rltb_false by lra.
    assert (E : progressAt now 1000 t = 1)
      by (pose proof (progressAt_le_1 now 1000 t); lra).
    rewrite E, easeOut_1. f_equal; apply (f_equal Num); ring.
Qed.

Lemma frame_finishes (th ph : number) (st sp tt tp now t : R) (n : nat) :
  now + 1000 <= t ->
  frame t (mkVisualizer th ph true [mkAnimation st sp now tt tp 1000] n)
  = mkVisualizer tt tp false [] n.
Proof.
  intros Hlate. unfold frame.
  cbn [animationFrames fold_left clearAnimationFrames theta phi isAnimating
       measureTimeouts].
  assert (Hd : 1000 <> 0) by lra.
  rewrite (animate_Num _ t now st sp tt tp 1000 Hd).
  rewrite progressAt_done by lra. rewrite Rltb_false by lra.
  rewrite easeOut_1. cbn [animationFrames measureTimeouts].
  f_equal; apply (f_equal Num); ring.
Qed.

Lemma frames_under_way (times : list R) (th ph : number)
    (st sp tt tp now : R) (n : nat) :
  let a := mkAnimation st sp now tt tp 1000 in
  (exists th' ph', frames times (mkVisualizer th ph true [a] n)
                   = mkVisualizer th' ph' true [a] n) \/
  frames times (mkVisualizer th ph true [a] n) = mkVisualizer tt tp false [] n.
Proof.
  intros a. revert th ph.
  induction times as [| t times IH]; intros th ph.
  - left. exists th, ph. reflexivity.
  - change (frames (t :: times) (mkVisualizer th ph true [a] n))
      with (frames times (frame t (mkVisualizer th ph true [a] n))).
    destruct (frame_under_way th ph st sp tt tp now t n) as [(th' & ph' & E) | E];
      fold a in E; rewrite E.
    + apply IH.
    + right. clear. induction times as [| t' times IH']; [reflexivity |].
      exact IH'.
Qed.

(** A requested transition is over once a frame comes at or after
    [startTime + duration], whatever frames came before: the angles are the
    target and the animator is idle again. *)
Lemma transition_completes (s : Visualizer) (st sp tt tp now : R)
    (times : list R) (t : R) :
  idle s -> theta s = Num st -> phi s = Num sp ->
  now + 1000 <= t ->
  frames (times ++ [t]) (animateToState tt tp defaultDuration now s)
  = mkVisualizer tt tp false [] (measureTimeouts s).
Proof.
  intros [Hi Hf] Ht Hp Hlate.
  rewrite animateToState_idle by exact Hi. rewrite Hf, Ht, Hp.
  unfold defaultDuration. cbn [app]. rewrite frames_app.
  destruct (frames_under_way times st sp st sp tt tp now (measureTimeouts s))
    as [(th' & ph' & E) | E]; rewrite E.
  - apply frame_finishes, Hlate.
  - reflexivity.
Qed.

Lemma completed_idle (tt tp : number) (n : nat) : idle (mkVisualizer tt tp false [] n).
Proof. split; reflexivity. Qed.

(** What each gate requests from a state with real angles. *)
Lemma applyPauliX_request (s : Visualizer) (t p now : R) :
  theta s = Num t -> phi s = Num p -> 0 <= p < 2 * PI ->
  applyPauliX now s = animateToState (Num (PI - t)) (halfTurn p) defaultDuration now s.
Proof.
  intros Ht Hp Hr. unfold applyPauliX. rewrite Ht, Hp, add_PI_rem by exact Hr.
  reflexivity.
Qed.

Lemma applyPauliY_request (s : Visualizer) (t p now : R) :
  theta s = Num t -> phi s = Num p -> 0 <= p < 2 * PI ->
  applyPauliY now s = animateToState (Num (PI - t)) (mirror p) defaultDuration now s.
Proof.
  intros Ht Hp Hr. unfold applyPauliY. rewrite Ht, Hp.
  pose proof (sub_PI_rem p Hr) as E. cbv zeta in E |- *. rewrite E.
  reflexivity.
Qed.

Lemma applyPauliZ_request (s : Visualizer) (t p now : R) :
  theta s = Num t -> phi s = Num p -> 0 <= p < 2 * PI ->
  applyPauliZ now s = animateToState t (halfTurn p) defaultDuration now s.
Proof.
  intros Ht Hp Hr. unfold applyPauliZ. rewrite Ht, Hp, add_PI_rem by exact Hr.
  reflexivity.
Qed.

(** C5.  Pauli-X is an involution on the angle pair: from an idle state with
    theta in [0, PI] and phi in [0, 2 PI), applying the gate and letting its
    transition finish (any frames, the last one at or after its end time)
    gives theta' = PI - theta and phi' = (phi + PI) mod 2 PI, and doing so
    once more gives back the original theta and phi. *)
Theorem pauliX_involution (s : Visualizer) (t p now1 t1 now2 t2 : R)
    (fs1 fs2 : list R) :
  idle s -> theta s = Num t -> phi s = Num p ->
  0 <= t <= PI -> 0 <= p < 2 * PI ->
  now1 + 1000 <= t1 -> now2 + 1000 <= t2 ->
  let s1 := frames (fs1 ++ [t1]) (applyPauliX now1 s) in
  let s2 := frames (fs2 ++ [t2]) (applyPauliX now2 s1) in
  theta s1 = Num (PI - t) /\
  phi s1 = ((Num p + Math.PI) mod (2 * Math.PI))%js /\
  theta s2 = Num t /\ phi s2 = Num p.
Proof.
  intros Hi Ht Hp Htr Hpr H1 H2 s1 s2.
  assert (E1 : s1 = mkVisualizer (Num (PI - t)) (halfTurn p) false [] (measureTimeouts s)).
  { unfold s1. rewrite (applyPauliX_request s t p) by assumption.
    apply (transition_completes s t p); assumption. }
  assert (E2 : s2 = mkVisualizer t p false [] (measureTimeouts s)).
  { unfold s2. rewrite E1.
    rewrite (applyPauliX_request _ (PI - t) (halfTurn p))
      by (try reflexivity; apply halfTurn_range; assumption).
    rewrite (transition_completes _ (PI - t) (halfTurn p))
      by (try reflexivity; try assumption; apply completed_idle).
    rewrite halfTurn_involutive by assumption.
    cbn [measureTimeouts]. f_equal. apply (f_equal Num). ring. }
  rewrite E1, E2, add_PI_rem by assumption. repeat split; reflexivity.
Qed.

Lemma pauliX_involution_witness :
  let s1 := frames ([16; 500] ++ [1000]) (applyPauliX 0 constructor) in
  let s2 := frames ([2016; 2500] ++ [3000]) (applyPauliX 2000 s1) in
  theta s2 = Num 0 /\ phi s2 = Num 0.
Proof.
  pose proof PI_RGT_0 as Hpi.
  assert (Ht : 0 <= 0 <= PI) by lra.
  assert (Hp : 0 <= 0 < 2 * PI) by lra.
  assert (H1 : 0 + 1000 <= 1000) by lra.
  assert (H2 : 2000 + 1000 <= 3000) by lra.
  exact (proj2 (proj2 (pauliX_involution constructor 0 0 0 1000 2000 3000
    [16; 500] [2016; 2500]
    (conj eq_refl eq_refl) eq_refl eq_refl Ht Hp H1 H2))).
Defined.

(** C10 (as amended).  Pauli-Y is an involution on the angle pair, within
    floating tolerance: in exact arithmetic, from an idle state with theta
    in [0, PI] and phi in [0, 2 PI), applying the gate and letting its
    transition finish (any frames, the last one at or after its end time)
    gives theta' = PI - theta and phi' = (PI - phi) mod 2 PI moved into
    [0, 2 PI) when negative, and doing so once more gives back the original
    theta and phi.  In doubles the two subtractions from [Math.PI] round,
    and the round trip holds up to that rounding only. *)
Theorem pauliY_involution (s : Visualizer) (t p now1 t1 now2 t2 : R)
    (fs1 fs2 : list R) :
  idle s -> theta s = Num t -> phi s = Num p ->
  0 <= t <= PI -> 0 <= p < 2 * PI ->
  now1 + 1000 <= t1 -> now2 + 1000 <= t2 ->
  let s1 := frames (fs1 ++ [t1]) (applyPauliY now1 s) in
  let s2 := frames (fs2 ++ [t2]) (applyPauliY now2 s1) in
  theta s1 = Num (PI - t) /\
  phi s1 = (let newPhi := ((Math.PI - Num p) mod (2 * Math.PI))%js in
            if (newPhi <? 0)%js then (newPhi + 2 * Math.PI)%js else newPhi) /\
  theta s2 = Num t /\ phi s2 = Num p.
Proof.
  intros Hi Ht Hp Htr Hpr H1 H2 s1 s2.
  assert (E1 : s1 = mkVisualizer (Num (PI - t)) (mirror p) false [] (measureTimeouts s)).
  { unfold s1. rewrite (applyPauliY_request s t p) by assumption.
    apply (transition_completes s t p); assumption. }
  assert (E2 : s2 = mkVisualizer t p false [] (measureTimeouts s)).
  { unfold s2. rewrite E1.
    rewrite (applyPauliY_request _ (PI - t) (mirror p))
      by (try reflexivity; apply mirror_range; assumption).
    rewrite (transition_completes _ (PI - t) (mirror p))
      by (try reflexivity; try assumption; apply completed_idle).
    rewrite mirror_involutive by assumption.
    cbn [measureTimeouts]. f_equal. apply (f_equal Num). ring. }
  rewrite E1, E2, sub_PI_rem by assumption. repeat split; reflexivity.
Qed.

Lemma pauliY_involution_witness :
  let s1 := frames ([16; 500] ++ [1000]) (applyPauliY 0 constructor) in
  let s2 := frames ([2016; 2500] ++ [3000]) (applyPauliY 2000 s1) in
  theta s2 = Num 0 /\ phi s2 = Num 0.
Proof.
  pose proof PI_RGT_0 as Hpi.
  assert (Ht : 0 <= 0 <= PI) by lra.
  assert (Hp : 0 <= 0 < 2 * PI) by lra.
  assert (H1 : 0 + 1000 <= 1000) by lra.
  assert (H2 : 2000 + 1000 <= 3000) by lra.
  exact (proj2 (proj2 (pauliY_involution constructor 0 0 0 1000 2000 3000
    [16; 500] [2016; 2500]
    (conj eq_refl eq_refl) eq_refl eq_refl Ht Hp H1 H2))).
Defined.

(** C10 as stated fails in doubles: the round trip is not exact.  With the
    theta slider at 1 degree, theta is 0.017453292519943295.  [applyPauliY]
    requests theta' = Math.PI - theta = 3.12413936106985, and from there it
    requests Math.PI - theta' = 0.017453292519943098, which is not the
    original theta; phi goes from 0 to Math.PI and back to 0. *)
Lemma pauliY_twice_not_exact :
  let s := Double.thetaSliderInput 1 Double.constructor in
  let s1 := Double.mkVisualizer 0x1.8fe3cc6ff87dep+1 Double.Math.PI false [] 0 in
  Double.theta s = 0x1.1df46a2529d39p-6%float /\
  Double.phi s = 0%float /\
  Double.animationFrames (Double.applyPauliY 0 s)
  = [Double.mkAnimation (Double.theta s) (Double.phi s) 0
       (Double.theta s1) (Double.phi s1) 1000] /\
  Double.animationFrames (Double.applyPauliY 2000 s1)
  = [Double.mkAnimation (Double.theta s1) (Double.phi s1) 2000
       0x1.1df46a2529d00p-6 0 1000] /\
  (0x1.1df46a2529d00p-6 =? Double.theta s)%float = false.
Proof. vm_compute. repeat split; reflexivity. Qed.

(** ** The angle of a point: [Math.atan2] on the reals *)

Lemma atan_pos (u : R) : 0 < u -> 0 < atan u.
Proof. intros H. rewrite <- atan_0. apply atan_increasing, H. Qed.

Lemma atan_nonpos (u : R) : u <= 0 -> atan u <= 0.
Proof.
  intros [H | ->]; [| rewrite atan_0; lra].
  left. rewrite <- atan_0. apply atan_increasing, H.
Qed.

Lemma quotient_neg_neg (x y : R) : x < 0 -> y < 0 -> 0 < y / x.
Proof.
  intros Hx Hy. replace (y / x) with ((- y) * / (- x)) by (field; lra).
  apply Rmult_lt_0_compat; [lra |]. apply Rinv_0_lt_compat. lra.
Qed.

Lemma quotient_neg_nonneg (x y : R) : x < 0 -> 0 <= y -> y / x <= 0.
Proof.
  intros Hx Hy. replace (y / x) with (- (y * / (- x))) by (field; lra).
  assert (0 <= y * / - x); [| lra].
  apply Rmult_le_pos; [lra |]. left. apply Rinv_0_lt_compat. lra.
Qed.

Lemma Ratan2_bound (y x : R) : - PI < Math.Ratan2 y x <= PI.
Proof.
  pose proof PI_RGT_0 as Hpi. pose proof (atan_bound (y / x)) as Ha.
  unfold Math.Ratan2.
  destruct (Rlt_dec 0 x); [rewrite Rltb_true by assumption; lra |].
  rewrite Rltb_false by lra.
  destruct (Rlt_dec x 0).
  - rewrite Rltb_true by assumption.
    destruct (Rlt_dec y 0).
    + rewrite Rltb_true by assumption.
      pose proof (atan_pos (y / x) (quotient_neg_neg x y ltac:(assumption) ltac:(assumption))).
      lra.
    + rewrite Rltb_false by lra.
      pose proof (atan_nonpos (y / x) (quotient_neg_nonneg x y ltac:(assumption) ltac:(lra))).
      lra.
  - rewrite Rltb_false by lra.
    destruct (Rlt_dec 0 y); [rewrite Rltb_true by assumption; lra |].
    rewrite Rltb_false by lra.
    destruct (Rlt_dec y 0);
      [rewrite Rltb_true by assumption | rewrite Rltb_false by lra]; lra.
Qed.

(** The cosine and sine of [atan (y / x)] point along [(|x|, y * sign x)]. *)
Lemma atan_direction (x y r : R) :
  x <> 0 -> 0 < r -> r * r = x * x + y * y ->
  let c := cos (atan (y / x)) in
  let s := sin (atan (y / x)) in
  0 < c /\ (c * r) * (c * r) = x * x /\ s * r * x = y * (c * r).
Proof.
  intros Hx Hr Hrr c s.
  pose proof (atan_bound (y / x)) as Hb.
  assert (Hc : 0 < c) by (apply cos_gt_0; lra).
  pose proof (tan_atan (y / x)) as Ht. unfold tan in Ht. fold c s in Ht.
  pose proof (sin2_cos2 (atan (y / x))) as Hsc. unfold Rsqr in Hsc.
  fold c s in Hsc.
  assert (Hs : s * x = c * y).
  { assert (E : s = c * (y / x)) by (rewrite <- Ht; field; lra).
    rewrite E. field. exact Hx. }
  split; [exact Hc |]. split.
  - replace (c * r * (c * r)) with (c * c * (r * r)) by ring.
    rewrite Hrr.
    replace (c * c * (x * x + y * y)) with (c * c * (x * x) + (c * y) * (c * y)) by ring.
    rewrite <- Hs.
    replace (c * c * (x * x) + s * x * (s * x)) with ((s * s + c * c) * (x * x)) by ring.
    rewrite Hsc. ring.
  - replace (s * r * x) with (s * x * r) by ring. rewrite Hs. ring.
Qed.

Lemma Ratan2_direction (x y r : R) :
  0 < r -> r * r = x * x + y * y ->
  cos (Math.Ratan2 y x) * r = x /\ sin (Math.Ratan2 y x) * r = y.
Proof.
  intros Hr Hrr. pose proof PI_RGT_0 as Hpi. unfold Math.Ratan2.
  destruct (Rlt_dec 0 x) as [Hpos | Hnpos].
  - rewrite Rltb_true by assumption.
    destruct (atan_direction x y r) as (Hc & Hcr & Hs); try assumption; try lra.
    assert (E : cos (atan (y / x)) * r = x).
    { assert (0 < cos (atan (y / x)) * r) by (apply Rmult_lt_0_compat; assumption).
      nra. }
    split; [exact E |]. rewrite E in Hs.
    apply Rmult_eq_reg_r with x; lra.
  - rewrite Rltb_false by lra.
    destruct (Rlt_dec x 0) as [Hneg | Hnneg].
    + rewrite Rltb_true by assumption.
      destruct (atan_direction x y r) as (Hc & Hcr & Hs); try assumption; try lra.
      assert (E : cos (atan (y / x)) * r = - x).
      { assert (0 < cos (atan (y / x)) * r) by (apply Rmult_lt_0_compat; assumption).
        nra. }
      rewrite E in Hs.
      assert (E' : sin (atan (y / x)) * r = - y).
      { apply Rmult_eq_reg_r with x; lra. }
      destruct (Rltb y 0).
      * replace (atan (y / x) - PI) with (atan (y / x) + PI - 2 * PI) by ring.
        rewrite cos_minus, sin_minus, cos_2PI, sin_2PI, neg_cos, neg_sin.
        split; lra.
      * rewrite neg_cos, neg_sin. split; lra.
    + rewrite Rltb_false by lra. assert (x = 0) by lra. subst x.
      destruct (Rlt_dec 0 y) as [Hy | Hy].
      * rewrite Rltb_true by assumption. rewrite cos_PI2, sin_PI2. split; nra.
      * rewrite Rltb_false by lra.
        destruct (Rlt_dec y 0) as [Hy' | Hy'].
        { rewrite Rltb_true by assumption.
          rewrite cos_neg, sin_neg, cos_PI2, sin_PI2. split; nra. }
        { assert (y = 0) by lra. subst y. nra. }
Qed.

Lemma angle_unique (a b : R) :
  - PI < a <= PI -> - PI < b <= PI ->
  cos a = cos b -> sin a = sin b -> a = b.
Proof.
  intros Ha Hb Hc Hs. pose proof PI_RGT_0 as Hpi.
  destruct (Rle_dec 0 a) as [Ha0 | Ha0]; destruct (Rle_dec 0 b) as [Hb0 | Hb0].
  - apply cos_inj; [lra | lra | exact Hc].
  - pose proof (sin_ge_0 a ltac:(lra) ltac:(lra)).
    pose proof (sin_lt_0_var b ltac:(lra) ltac:(lra)). lra.
  - pose proof (sin_ge_0 b ltac:(lra) ltac:(lra)).
    pose proof (sin_lt_0_var a ltac:(lra) ltac:(lra)). lra.
  - assert (E : - a = - b); [| lra].
    apply cos_inj; [lra | lra |]. rewrite !cos_neg. exact Hc.
Qed.

(** [atan2] gives back the angle of a point written in polar form. *)
Lemma Ratan2_polar (r a : R) :
  0 < r -> - PI < a <= PI -> Math.Ratan2 (r * sin a) (r * cos a) = a.
Proof.
  intros Hr Ha.
  assert (Hrr : r * r = r * cos a * (r * cos a) + r * sin a * (r * sin a)).
  { pose proof (sin2_cos2 a) as H. unfold Rsqr in H.
    replace (r * cos a * (r * cos a) + r * sin a * (r * sin a))
      with (r * r * (sin a * sin a + cos a * cos a)) by ring.
    rewrite H. ring. }
  destruct (Ratan2_direction (r * cos a) (r * sin a) r Hr Hrr) as [Hc Hs].
  apply angle_unique; [apply Ratan2_bound | exact Ha | |].
  - apply Rmult_eq_reg_r with r; lra.
  - apply Rmult_eq_reg_r with r; lra.
Qed.

Lemma wrap_range (a : R) : - PI < a <= PI -> 0 <= wrap a < 2 * PI.
Proof.
  intros H. pose proof PI_RGT_0 as Hpi. unfold wrap.
  destruct (Rlt_dec a 0);
    [rewrite Rltb_true by assumption | rewrite Rltb_false by lra]; lra.
Qed.

Lemma cos_wrap (a : R) : cos (wrap a) = cos a.
Proof.
  unfold wrap. destruct (Rltb a 0); [| reflexivity].
  rewrite cos_plus, cos_2PI, sin_2PI. ring.
Qed.

Lemma sin_wrap (a : R) : sin (wrap a) = sin a.
Proof.
  unfold wrap. destruct (Rltb a 0); [| reflexivity].
  rewrite sin_plus, cos_2PI, sin_2PI. ring.
Qed.

Lemma wrap_Ratan2_polar (r p : R) :
  0 < r -> 0 <= p < 2 * PI -> wrap (Math.Ratan2 (r * sin p) (r * cos p)) = p.
Proof.
  intros Hr Hp. pose proof PI_RGT_0 as Hpi.
  destruct (Rle_dec p PI) as [Hle | Hgt].
  - rewrite Ratan2_polar by lra. unfold wrap. rewrite Rltb_false by lra.
    reflexivity.
  - assert (Es : sin p = sin (p - 2 * PI)).
    { rewrite sin_minus, cos_2PI, sin_2PI. ring. }
    assert (Ec : cos p = cos (p - 2 * PI)).
    { rewrite cos_minus, cos_2PI, sin_2PI. ring. }
    rewrite Es, Ec, Ratan2_polar by lra.
    unfold wrap. rewrite Rltb_true by lra. ring.
Qed.

(** ** The Hadamard gate on the angles *)

Lemma sin_cos_product_bound (t p : R) : -1 <= sin t * cos p <= 1.
Proof.
  pose proof (SIN_bound t). pose proof (COS_bound p). split; nra.
Qed.

Lemma applyHadamard_ground (s : Visualizer) (t now : R) :
  theta s = Num t -> Rabs t < 1e-10 ->
  applyHadamard now s = animateToState (Num (PI / 2)) 0 defaultDuration now s.
Proof.
  intros Ht H. unfold applyHadamard. rewrite Ht.
  cbn [Math.abs JS.lift1 JS.lt]. rewrite Rltb_true by exact H.
  unfold Math.PI. rewrite div_Num by lra. reflexivity.
Qed.

Lemma applyHadamard_excited (s : Visualizer) (t now : R) :
  theta s = Num t -> 1e-10 <= Rabs t -> Rabs (t - PI) < 1e-10 ->
  applyHadamard now s = animateToState (Num (PI / 2)) (Num PI) defaultDuration now s.
Proof.
  intros Ht H0 H. unfold applyHadamard. rewrite Ht.
  unfold Math.PI. cbn [Math.abs JS.lift1 JS.lt JS.sub JS.lift2].
  rewrite Rltb_false by exact H0. rewrite Rltb_true by exact H.
  rewrite div_Num by lra. reflexivity.
Qed.

Lemma applyHadamard_general (s : Visualizer) (t p now : R) :
  theta s = Num t -> phi s = Num p -> ~ nearPole t ->
  applyHadamard now s
  = animateToState (Num (hadamardTheta t p)) (Num (hadamardPhi t p))
      defaultDuration now s.
Proof.
  intros Ht Hp Hn. unfold nearPole in Hn.
  unfold applyHadamard. rewrite Ht, Hp.
  unfold Math.PI. cbn [Math.abs JS.lift1 JS.lt JS.sub JS.lift2].
  rewrite Rltb_false by lra. rewrite Rltb_false by lra.
  cbn [Math.sin Math.cos JS.lift1 JS.mul JS.lift2 JS.neg Math.acos Math.atan2].
  pose proof (sin_cos_product_bound t p) as Hb.
  rewrite (Rltb_false (sin t * cos p)) by lra.
  rewrite (Rltb_false 1) by lra. cbn [orb JS.lt JS.add JS.lift2].
  unfold hadamardTheta, hadamardPhi, wrap.
  destruct (Rltb _ 0); reflexivity.
Qed.

Lemma hadamardTheta_range (t p : R) : 0 <= hadamardTheta t p <= PI.
Proof. apply acos_bound. Qed.

Lemma hadamardPhi_range (t p : R) : 0 <= hadamardPhi t p < 2 * PI.
Proof. apply wrap_range, Ratan2_bound. Qed.

Lemma unit_vector (t p : R) :
  (sin t * cos p) * (sin t * cos p) + (sin t * sin p) * (sin t * sin p)
  + cos t * cos t = 1.
Proof.
  pose proof (sin2_cos2 t) as Ht. pose proof (sin2_cos2 p) as Hp.
  unfold Rsqr in *.
  replace (sin t * cos p * (sin t * cos p) + sin t * sin p * (sin t * sin p))
    with (sin t * sin t * (sin p * sin p + cos p * cos p)) by ring.
  rewrite Hp. lra.
Qed.

(** Away from the poles, before and after, the Hadamard angles are their own
    inverse. *)
Lemma hadamard_round_trip (t p : R) :
  0 < t < PI -> 0 <= p < 2 * PI -> 0 < hadamardTheta t p < PI ->
  hadamardTheta (hadamardTheta t p) (hadamardPhi t p) = t /\
  hadamardPhi (hadamardTheta t p) (hadamardPhi t p) = p.
Proof.
  intros Ht Hp Ht'.
  pose proof (sin_cos_product_bound t p) as Hb.
  pose proof (unit_vector t p) as Hu.
  assert (Hst : 0 < sin t) by (apply sin_gt_0; lra).
  assert (Hr : 0 < sin (hadamardTheta t p)) by (apply sin_gt_0; lra).
  assert (Hc : cos (hadamardTheta t p) = sin t * cos p).
  { unfold hadamardTheta. apply cos_acos. exact Hb. }
  pose proof (sin2_cos2 (hadamardTheta t p)) as Hsc. unfold Rsqr in Hsc.
  rewrite Hc in Hsc.
  set (r := sin (hadamardTheta t p)) in *.
  assert (Hrr : r * r = cos t * cos t + - (sin t * sin p) * - (sin t * sin p)) by lra.
  destruct (Ratan2_direction (cos t) (- (sin t * sin p)) r Hr Hrr) as [Hcp Hsp].
  assert (Hcp' : r * cos (hadamardPhi t p) = cos t).
  { unfold hadamardPhi. rewrite cos_wrap. lra. }
  assert (Hsp' : r * sin (hadamardPhi t p) = - (sin t * sin p)).
  { unfold hadamardPhi. rewrite sin_wrap. lra. }
  split.
  - unfold hadamardTheta at 1. fold r. rewrite Hcp'. apply acos_cos. lra.
  - unfold hadamardPhi at 1. fold r. rewrite Hsp', Hc.
    replace (- - (sin t * sin p)) with (sin t * sin p) by ring.
    apply wrap_Ratan2_polar; assumption.
Qed.

Lemma not_nearPole_inside (t : R) : 0 <= t <= PI -> ~ nearPole t -> 0 < t < PI.
Proof.
  intros Ht Hn. unfold nearPole in Hn.
  assert (H1 : ~ Rabs t < 1e-10) by tauto.
  assert (H2 : ~ Rabs (t - PI) < 1e-10) by tauto.
  unfold Rabs in H1, H2.
  destruct (Rcase_abs t), (Rcase_abs (t - PI)); lra.
Qed.

Lemma PI_gt_2 : 2 < PI.
Proof. pose proof PI2_1. lra. Qed.

Lemma half_PI_not_nearPole : ~ nearPole (PI / 2).
Proof.
  pose proof PI_gt_2 as H. unfold nearPole, Rabs.
  destruct (Rcase_abs (PI / 2)), (Rcase_abs (PI / 2 - PI)); lra.
Qed.

Lemma Ratan2_origin : Math.Ratan2 0 0 = 0.
Proof. unfold Math.Ratan2. rewrite !Rltb_false by lra. reflexivity. Qed.

(** The image of |+>, the state (PI/2, 0), is the ground state (0, 0). *)
Lemma hadamard_plus :
  hadamardTheta (PI / 2) 0 = 0 /\ hadamardPhi (PI / 2) 0 = 0.
Proof.
  unfold hadamardTheta, hadamardPhi.
  rewrite sin_PI2, cos_PI2, cos_0, sin_0. split.
  - replace (1 * 1) with 1 by ring. apply acos_1.
  - replace (- (1 * 0)) with 0 by ring. rewrite Ratan2_origin.
    unfold wrap. rewrite Rltb_false by lra. reflexivity.
Qed.

Lemma hadamardSpecialCase_false (s : Visualizer) (t : R) :
  theta s = Num t -> hadamardSpecialCase s = false -> ~ nearPole t.
Proof.
  intros Ht H. unfold hadamardSpecialCase in H. rewrite Ht in H.
  unfold Math.PI in H. cbn [Math.abs JS.lift1 JS.lt JS.sub JS.lift2] in H.
  apply orb_false_elim in H. destruct H as [H1 H2].
  unfold nearPole. intros [H | H].
  - rewrite (Rltb_true _ _ H) in H1. discriminate.
  - rewrite (Rltb_true _ _ H) in H2. discriminate.
Qed.

Lemma hadamardSpecialCase_half_PI (s : Visualizer) :
  theta s = Num (PI / 2) -> hadamardSpecialCase s = false.
Proof.
  intros Ht. unfold hadamardSpecialCase. rewrite Ht.
  unfold Math.PI. cbn [Math.abs JS.lift1 JS.lt JS.sub JS.lift2].
  pose proof half_PI_not_nearPole as H. unfold nearPole in H.
  rewrite !Rltb_false; [reflexivity | |]; apply Rnot_lt_le; tauto.
Qed.

Lemma hadamard_step_general (s : Visualizer) (t p now : R)
    (times : list R) (tf : R) :
  idle s -> theta s = Num t -> phi s = Num p -> ~ nearPole t ->
  now + 1000 <= tf ->
  frames (times ++ [tf]) (applyHadamard now s)
  = mkVisualizer (Num (hadamardTheta t p)) (Num (hadamardPhi t p)) false []
      (measureTimeouts s).
Proof.
  intros Hi Ht Hp Hn Hlate.
  rewrite (applyHadamard_general s t p) by assumption.
  apply (transition_completes s t p); assumption.
Qed.

Lemma hadamard_step_ground (s : Visualizer) (t p now : R)
    (times : list R) (tf : R) :
  idle s -> theta s = Num t -> phi s = Num p -> Rabs t < 1e-10 ->
  now + 1000 <= tf ->
  frames (times ++ [tf]) (applyHadamard now s)
  = mkVisualizer (Num (PI / 2)) (Num 0) false [] (measureTimeouts s).
Proof.
  intros Hi Ht Hp Hn Hlate.
  rewrite (applyHadamard_ground s t) by assumption.
  apply (transition_completes s t p); assumption.
Qed.

(** *** A state whose Hadamard image is special-cased *)

Lemma cos_Rabs (u : R) : cos (Rabs u) = cos u.
Proof. unfold Rabs. destruct (Rcase_abs u); [apply cos_neg | reflexivity]. Qed.

Lemma half_PI_gt_1 : 1 < PI / 2.
Proof. exact PI2_1. Qed.

(** The image has theta below [e] only if the state is within [e] of |+>,
    the state (PI/2, 0): in theta, and in phi on either side of the seam. *)
Lemma near_plus_state (t p e : R) :
  0 <= t <= PI -> 0 <= p < 2 * PI -> 0 < e < 1 ->
  hadamardTheta t p < e ->
  Rabs (t - PI / 2) < e /\ (p < e \/ 2 * PI - e < p).
Proof.
  intros Ht Hp He H. pose proof half_PI_gt_1 as Hpi.
  pose proof (sin_cos_product_bound t p) as Hb.
  pose proof (acos_bound (sin t * cos p)) as Ha.
  fold (hadamardTheta t p) in Ha.
  assert (Hx : cos e < sin t * cos p).
  { rewrite <- (cos_acos (sin t * cos p)) by exact Hb.
    fold (hadamardTheta t p). apply cos_decreasing_1; lra. }
  assert (Hce : 0 < cos e) by (apply cos_gt_0; lra).
  assert (Hs0 : 0 <= sin t) by (apply sin_ge_0; lra).
  pose proof (SIN_bound t) as Hs1. pose proof (COS_bound p) as Hc1.
  assert (Hcp : 0 < cos p) by nra.
  assert (Hcosp : cos e < cos p) by nra.
  assert (Hsint : cos e < sin t) by nra.
  split.
  - apply (cos_decreasing_0 e (Rabs (t - PI / 2))); try lra.
    + apply Rabs_pos.
    + unfold Rabs. destruct (Rcase_abs (t - PI / 2)); lra.
    + rewrite cos_Rabs, cos_minus, cos_PI2, sin_PI2. lra.
  - destruct (Rle_dec p PI) as [Hle | Hgt].
    + left. apply (cos_decreasing_0 e p); lra.
    + right. assert (H2 : 2 * PI - p < e).
      { apply (cos_decreasing_0 e (2 * PI - p)); try lra.
        rewrite cos_minus, cos_2PI, sin_2PI. lra. }
      lra.
Qed.

(** The image has theta above [PI - e] only if the state is within [e] of
    |->, the state (PI/2, PI). *)
Lemma near_minus_state (t p e : R) :
  0 <= t <= PI -> 0 <= p < 2 * PI -> 0 < e < 1 ->
  PI - e < hadamardTheta t p ->
  Rabs (t - PI / 2) < e /\ Rabs (p - PI) < e.
Proof.
  intros Ht Hp He H. pose proof half_PI_gt_1 as Hpi.
  pose proof (sin_cos_product_bound t p) as Hb.
  pose proof (acos_bound (sin t * cos p)) as Ha.
  fold (hadamardTheta t p) in Ha.
  assert (Hx : sin t * cos p < - cos e).
  { rewrite <- (cos_acos (sin t * cos p)) by exact Hb.
    fold (hadamardTheta t p).
    replace (- cos e) with (cos (PI - e))
      by (rewrite cos_minus, cos_PI, sin_PI; ring).
    apply cos_decreasing_1; lra. }
  assert (Hce : 0 < cos e) by (apply cos_gt_0; lra).
  assert (Hs0 : 0 <= sin t) by (apply sin_ge_0; lra).
  pose proof (SIN_bound t) as Hs1. pose proof (COS_bound p) as Hc1.
  assert (Hcp : cos p < 0) by nra.
  assert (Hcosp : cos e < - cos p) by nra.
  assert (Hsint : cos e < sin t) by nra.
  split.
  - apply (cos_decreasing_0 e (Rabs (t - PI / 2))); try lra.
    + apply Rabs_pos.
    + unfold Rabs. destruct (Rcase_abs (t - PI / 2)); lra.
    + rewrite cos_Rabs, cos_minus, cos_PI2, sin_PI2. lra.
  - apply (cos_decreasing_0 e (Rabs (p - PI))); try lra.
    + apply Rabs_pos.
    + unfold Rabs. destruct (Rcase_abs (p - PI)); lra.
    + rewrite cos_Rabs, cos_minus, cos_PI, sin_PI. lra.
Qed.

Lemma hadamard_step_excited (s : Visualizer) (t p now : R)
    (times : list R) (tf : R) :
  idle s -> theta s = Num t -> phi s = Num p ->
  1e-10 <= Rabs t -> Rabs (t - PI) < 1e-10 ->
  now + 1000 <= tf ->
  frames (times ++ [tf]) (applyHadamard now s)
  = mkVisualizer (Num (PI / 2)) (Num PI) false [] (measureTimeouts s).
Proof.
  intros Hi Ht Hp H0 Hn Hlate.
  rewrite (applyHadamard_excited s t) by assumption.
  apply (transition_completes s t p); assumption.
Qed.

(** C4.  From an idle state with theta in [0, PI] and phi in [0, 2 PI) that
    is not special-cased, applying the Hadamard gate twice, each transition
    run to its end (any frames, the last one at or after its end time),
    returns the original angles within tolerance: theta within 1e-7, and phi
    within 1e-4 modulo 2 PI.  In exact arithmetic the round trip is exact
    unless the image is within 1e-10 of a pole; then the second application
    takes its special case and lands on |+> or |->, and the original state
    was within 1e-10 of it.  The tolerances leave room for what doubles add:
    within 1e-8 of |+> or |-> the product sin(theta) cos(phi) rounds to 1 or
    -1, so the image is a pole and the special case is taken from further
    away; and within 1e-8 of a pole phi is recovered from components of the
    size of theta, to about 1e-15 / theta.  The special cases compose for
    the ground state: (0, 0) goes to (PI/2, 0), which goes back to (0, 0). *)
Theorem hadamard_twice_within_tolerance
    (s : Visualizer) (t p now1 t1 now2 t2 : R) (fs1 fs2 : list R) :
  idle s -> theta s = Num t -> phi s = Num p ->
  0 <= t <= PI -> 0 <= p < 2 * PI ->
  now1 + 1000 <= t1 -> now2 + 1000 <= t2 ->
  let s1 := frames (fs1 ++ [t1]) (applyHadamard now1 s) in
  let s2 := frames (fs2 ++ [t2]) (applyHadamard now2 s1) in
  (hadamardSpecialCase s = false ->
   exists t'' p'' : R,
     theta s2 = Num t'' /\ phi s2 = Num p'' /\
     near 1e-7 t'' t /\ nearOnCircle 1e-4 p'' p) /\
  (t = 0 -> p = 0 ->
   theta s1 = Num (PI / 2) /\ phi s1 = Num 0 /\
   theta s2 = Num 0 /\ phi s2 = Num 0).
Proof.
  intros Hi Ht Hp Htr Hpr H1 H2 s1 s2. split.
  - intros Hs.
    pose proof (hadamardSpecialCase_false s t Ht Hs) as Hn.
    assert (E1 : s1 = mkVisualizer (Num (hadamardTheta t p)) (Num (hadamardPhi t p))
                        false [] (measureTimeouts s)).
    { apply hadamard_step_general; assumption. }
    pose proof (hadamardTheta_range t p) as Hr.
    assert (He : 0 < 1e-10 < 1) by lra.
    destruct (Rlt_dec (Rabs (hadamardTheta t p)) 1e-10) as [Hg | Hg].
    + assert (E2 : s2 = mkVisualizer (Num (PI / 2)) (Num 0) false []
                          (measureTimeouts s)).
      { unfold s2. rewrite E1.
        rewrite (hadamard_step_ground _ (hadamardTheta t p) (hadamardPhi t p));
          [reflexivity | apply completed_idle | reflexivity | reflexivity
           | exact Hg | exact H2]. }
      rewrite Rabs_pos_eq in Hg by lra.
      destruct (near_plus_state t p 1e-10 Htr Hpr He Hg) as [Hnt Hnp].
      exists (PI / 2), 0. rewrite E2. cbn [theta phi].
      split; [reflexivity |]. split; [reflexivity |]. split.
      * unfold near. rewrite Rabs_minus_sym. lra.
      * unfold nearOnCircle. rewrite Rabs_minus_sym, Rminus_0_r.
        rewrite Rabs_pos_eq by lra. lra.
    + destruct (Rlt_dec (Rabs (hadamardTheta t p - PI)) 1e-10) as [He' | He'].
      * assert (E2 : s2 = mkVisualizer (Num (PI / 2)) (Num PI) false []
                            (measureTimeouts s)).
        { unfold s2. rewrite E1.
          rewrite (hadamard_step_excited _ (hadamardTheta t p) (hadamardPhi t p));
            [reflexivity | apply completed_idle | reflexivity | reflexivity
             | lra | exact He' | exact H2]. }
        assert (Hlt : PI - 1e-10 < hadamardTheta t p).
        { unfold Rabs in He'.
          destruct (Rcase_abs (hadamardTheta t p - PI)); lra. }
        destruct (near_minus_state t p 1e-10 Htr Hpr He Hlt) as [Hnt Hnp].
        exists (PI / 2), PI. rewrite E2. cbn [theta phi].
        split; [reflexivity |]. split; [reflexivity |]. split.
        -- unfold near. rewrite Rabs_minus_sym. lra.
        -- left. rewrite Rabs_minus_sym. lra.
      * assert (Hn1 : ~ nearPole (hadamardTheta t p))
          by (unfold nearPole; tauto).
        assert (E2 : s2 = mkVisualizer
                            (Num (hadamardTheta (hadamardTheta t p) (hadamardPhi t p)))
                            (Num (hadamardPhi (hadamardTheta t p) (hadamardPhi t p)))
                            false [] (measureTimeouts s)).
        { unfold s2. rewrite E1.
          rewrite (hadamard_step_general _ (hadamardTheta t p) (hadamardPhi t p));
            [reflexivity | apply completed_idle | reflexivity | reflexivity
             | exact Hn1 | exact H2]. }
        destruct (hadamard_round_trip t p) as [Et Ep].
        -- apply not_nearPole_inside; assumption.
        -- exact Hpr.
        -- apply not_nearPole_inside; [exact Hr | exact Hn1].
        -- exists t, p. rewrite E2. cbn [theta phi]. rewrite Et, Ep.
           split; [reflexivity |]. split; [reflexivity |].
           unfold near, nearOnCircle.
           replace (t - t) with 0 by ring. replace (p - p) with 0 by ring.
           rewrite Rabs_R0. lra.
  - intros -> ->.
    assert (E1 : s1 = mkVisualizer (Num (PI / 2)) (Num 0) false [] (measureTimeouts s)).
    { apply (hadamard_step_ground s 0 0); try assumption.
      rewrite Rabs_R0. lra. }
    assert (E2 : s2 = mkVisualizer (Num 0) (Num 0) false [] (measureTimeouts s)).
    { unfold s2. rewrite E1.
      rewrite (hadamard_step_general _ (PI / 2) 0);
        [| apply completed_idle | reflexivity | reflexivity
         | apply half_PI_not_nearPole | exact H2].
      destruct hadamard_plus as [-> ->]. reflexivity. }
    rewrite E1, E2. repeat split; reflexivity.
Qed.

Lemma hadamard_twice_within_tolerance_witness :
  let s := mkVisualizer (Num (PI / 2)) (Num (PI / 2)) false [] 0 in
  let s1 := frames ([16; 500] ++ [1000]) (applyHadamard 0 s) in
  let s2 := frames ([2016; 2500] ++ [3000]) (applyHadamard 2000 s1) in
  exists t'' p'' : R,
    theta s2 = Num t'' /\ phi s2 = Num p'' /\
    near 1e-7 t'' (PI / 2) /\ nearOnCircle 1e-4 p'' (PI / 2).
Proof.
  intros s s1 s2.
  pose proof PI_RGT_0 as Hpi.
  assert (Hi : idle s) by (split; reflexivity).
  assert (Ht : 0 <= PI / 2 <= PI) by lra.
  assert (Hp : 0 <= PI / 2 < 2 * PI) by lra.
  assert (H1 : 0 + 1000 <= 1000) by lra.
  assert (H2 : 2000 + 1000 <= 3000) by lra.
  assert (Hs : hadamardSpecialCase s = false)
    by (apply hadamardSpecialCase_half_PI; reflexivity).
  exact (proj1 (hadamard_twice_within_tolerance s (PI / 2) (PI / 2) 0 1000 2000 3000
                  [16; 500] [2016; 2500]
                  Hi eq_refl eq_refl Ht Hp H1 H2) Hs).
Defined.

(** ** The angles on the way to the target *)

Lemma easeOut_range (p : R) : 0 <= p <= 1 -> 0 <= easeOut p <= 1.
Proof.
  intros H. unfold easeOut. set (q := 1 - p).
  assert (Hq : 0 <= q <= 1) by (unfold q; lra).
  assert (H2 : 0 <= q * q <= 1) by nra.
  assert (H3 : 0 <= q * (q * q) <= 1) by nra.
  cbn [pow]. rewrite Rmult_1_r. lra.
Qed.

Lemma between_closed (a b e m : R) :
  0 <= e <= 1 -> 0 <= a <= m -> 0 <= b <= m -> 0 <= a + (b - a) * e <= m.
Proof.
  intros He Ha Hb.
  replace (a + (b - a) * e) with ((1 - e) * a + e * b) by ring.
  split; nra.
Qed.

Lemma between_open (a b e m : R) :
  0 <= e <= 1 -> 0 <= a < m -> 0 <= b < m -> 0 <= a + (b - a) * e < m.
Proof.
  intros He Ha Hb.
  replace (a + (b - a) * e) with ((1 - e) * a + e * b) by ring.
  split; [nra |].
  destruct (Rle_dec e (1 / 2)); nra.
Qed.

Lemma frame_onTheWay (now t : R) (s : Visualizer) :
  now <= t -> onTheWay now s -> onTheWay now (frame t s).
Proof.
  intros Ht [Hr [[Hi Hf] | (Hb & st & sp & tt & tp & Hf & Hst & Hsp & Htt & Htp)]].
  - unfold frame. rewrite Hf. cbn [fold_left].
    split; [exact Hr |]. left. split; [exact Hi | reflexivity].
  - unfold frame. rewrite Hf. cbn [fold_left].
    assert (Hd : 1000 <> 0) by lra.
    rewrite (animate_Num _ t now st sp tt tp 1000 Hd).
    pose proof (progressAt_le_1 now 1000 t) as Hp1.
    pose proof (progressAt_nonneg now 1000 t ltac:(lra) Ht) as Hp0.
    pose proof (easeOut_range _ (conj Hp0 Hp1)) as He.
    pose proof (between_closed st tt _ PI He Hst Htt) as Hth.
    pose proof (between_closed sp tp _ (2 * PI) He Hsp Htp) as Hph.
    destruct (Rltb (progressAt now 1000 t) 1).
    + split; [split; assumption |]. right.
      cbn [isAnimating animationFrames clearAnimationFrames app].
      split; [exact Hb |]. exists st, sp, tt, tp. repeat split; tauto.
    + split; [split; assumption |]. left. split; reflexivity.
Qed.

Lemma frames_onTheWay (now : R) (times : list R) (s : Visualizer) :
  Forall (fun t => now <= t) times -> onTheWay now s ->
  onTheWay now (frames times s).
Proof.
  intros H. revert s. induction H as [| t times Ht _ IH]; intros s Hs.
  - exact Hs.
  - cbn [fold_left]. apply IH, frame_onTheWay; assumption.
Qed.

Lemma request_onTheWay (s : Visualizer) (t p a b now : R) :
  idle s -> theta s = Num t -> phi s = Num p ->
  0 <= t <= PI -> 0 <= p <= 2 * PI -> 0 <= a <= PI -> 0 <= b <= 2 * PI ->
  onTheWay now (animateToState (Num a) (Num b) defaultDuration now s).
Proof.
  intros [Hi Hf] Ht Hp Htr Hpr Ha Hb.
  rewrite animateToState_idle by exact Hi. rewrite Hf, Ht, Hp. split.
  - split; assumption.
  - right. split; [reflexivity |]. exists t, p, a, b. repeat split; tauto.
Qed.

(** ** Gates and presets keep the angles in range *)

Lemma half_PI : (Math.PI / 2)%js = Num (PI / 2).
Proof. unfold Math.PI. apply div_Num. lra. Qed.

Lemma three_half_PI : (3 * Math.PI / 2)%js = Num (3 * PI / 2).
Proof. unfold Math.PI. cbn [JS.mul JS.lift2]. apply div_Num. lra. Qed.

Lemma applyHadamard_request (s : Visualizer) (t p now : R) :
  theta s = Num t -> phi s = Num p ->
  exists a b : R,
    applyHadamard now s = animateToState (Num a) (Num b) defaultDuration now s /\
    0 <= a <= PI /\ 0 <= b < 2 * PI.
Proof.
  intros Ht Hp. pose proof PI_RGT_0 as Hpi.
  destruct (Rlt_dec (Rabs t) 1e-10) as [H0 | H0].
  - exists (PI / 2), 0. split; [apply (applyHadamard_ground s t); assumption | lra].
  - destruct (Rlt_dec (Rabs (t - PI)) 1e-10) as [H1 | H1].
    + exists (PI / 2), PI.
      split; [apply (applyHadamard_excited s t); try assumption; lra | lra].
    + exists (hadamardTheta t p), (hadamardPhi t p). split.
      * apply applyHadamard_general; try assumption. unfold nearPole. tauto.
      * split; [apply hadamardTheta_range | apply hadamardPhi_range].
Qed.

(** The remainders of the gates when phi is 2 PI itself. *)
Lemma add_PI_rem_closed (p : R) :
  0 <= p <= 2 * PI ->
  ((Num p + Math.PI) mod (2 * Math.PI))%js = Num (halfTurn p).
Proof.
  intros H. pose proof PI_RGT_0 as Hpi. rewrite two_PI.
  unfold Math.PI, halfTurn. cbn [JS.add JS.lift2].
  destruct (Rlt_dec p PI) as [Hlt | Hge].
  - rewrite Rltb_true by exact Hlt. apply rem_within; lra.
  - rewrite Rltb_false by lra. rewrite rem_once by lra. f_equal. ring.
Qed.

Lemma halfTurn_closed_range (p : R) : 0 <= p <= 2 * PI -> 0 <= halfTurn p <= 2 * PI.
Proof.
  intros H. pose proof PI_RGT_0 as Hpi. unfold halfTurn.
  destruct (Rlt_dec p PI).
  - rewrite Rltb_true by assumption. lra.
  - rewrite Rltb_false by lra. lra.
Qed.

Lemma sub_PI_rem_closed (p : R) :
  0 <= p <= 2 * PI ->
  (let newPhi := ((Math.PI - Num p) mod (2 * Math.PI))%js in
   if (newPhi <? 0)%js then (newPhi + 2 * Math.PI)%js else newPhi)
  = Num (mirror p).
Proof.
  intros H. pose proof PI_RGT_0 as Hpi. rewrite two_PI.
  unfold Math.PI, mirror. cbn [JS.sub JS.lift2].
  rewrite rem_within by lra. cbv zeta. cbn [JS.lt].
  destruct (Rltb (PI - p) 0); reflexivity.
Qed.

Lemma mirror_closed_range (p : R) : 0 <= p <= 2 * PI -> 0 <= mirror p <= 2 * PI.
Proof.
  intros H. pose proof PI_RGT_0 as Hpi. unfold mirror.
  destruct (Rlt_dec (PI - p) 0).
  - rewrite Rltb_true by assumption. lra.
  - rewrite Rltb_false by lra. lra.
Qed.

Lemma perform_request (op : operation) (s : Visualizer) (t p now : R) :
  theta s = Num t -> phi s = Num p ->
  0 <= t <= PI -> 0 <= p <= 2 * PI -> supported op ->
  exists a b : R,
    perform op now s = animateToState (Num a) (Num b) defaultDuration now s /\
    0 <= a <= PI /\ 0 <= b <= 2 * PI.
Proof.
  intros Ht Hp Htr Hpr Hop. pose proof PI_RGT_0 as Hpi.
  destruct op as [gate | state]; cbn [supported gateIds presetIds In] in Hop.
  - destruct Hop as [<- | [<- | [<- | [<- | []]]]]; cbn [perform].
    + exists (PI - t), (halfTurn p). split.
      * change (snd (applyQuantumGate "x" now s)) with (applyPauliX now s).
        unfold applyPauliX. rewrite Ht, Hp, add_PI_rem_closed by exact Hpr.
        reflexivity.
      * split; [lra | apply halfTurn_closed_range, Hpr].
    + exists (PI - t), (mirror p). split.
      * change (snd (applyQuantumGate "y" now s)) with (applyPauliY now s).
        unfold applyPauliY. rewrite Ht, Hp.
        pose proof (sub_PI_rem_closed p Hpr) as E. cbv zeta in E |- *.
        rewrite E. reflexivity.
      * split; [lra | apply mirror_closed_range, Hpr].
    + exists t, (halfTurn p). split.
      * change (snd (applyQuantumGate "z" now s)) with (applyPauliZ now s).
        unfold applyPauliZ. rewrite Ht, Hp, add_PI_rem_closed by exact Hpr.
        reflexivity.
      * split; [lra | apply halfTurn_closed_range, Hpr].
    + destruct (applyHadamard_request s t p now Ht Hp) as (a & b & E & Ha & Hb).
      exists a, b. split; [exact E |]. split; [exact Ha | lra].
  - destruct Hop as [<- | [<- | [<- | [<- | [<- | [<- | []]]]]]]; cbn [perform].
    + exists 0, 0. split; [reflexivity | lra].
    + exists PI, 0. split; [reflexivity | lra].
    + exists (PI / 2), 0. split; [| lra].
      change (setPresetState "plus" now s)
        with (animateToState (Math.PI / 2)%js 0 defaultDuration now s).
      rewrite half_PI. reflexivity.
    + exists (PI / 2), PI. split; [| lra].
      change (setPresetState "minus" now s)
        with (animateToState (Math.PI / 2)%js Math.PI defaultDuration now s).
      rewrite half_PI. reflexivity.
    + exists (PI / 2), (PI / 2). split; [| lra].
      change (setPresetState "right" now s)
        with (animateToState (Math.PI / 2)%js (Math.PI / 2)%js defaultDuration now s).
      rewrite half_PI. reflexivity.
    + exists (PI / 2), (3 * PI / 2). split; [| lra].
      change (setPresetState "left" now s)
        with (animateToState (Math.PI / 2)%js (3 * Math.PI / 2)%js
                defaultDuration now s).
      rewrite half_PI, three_half_PI. reflexivity.
Qed.

(** C9 (as amended).  From an idle state with theta in [0, PI] and phi in
    [0, 2 PI], each of the gates x, y, z, h and each of the six presets
    requests a target with theta' in [0, PI] and phi' in [0, 2 PI]; when the
    transition has run to its end (any frames, the last one at or after its
    end time) the state is idle at angles in those ranges, and the angles
    are in those ranges after any frames on the way there (whose clock does
    not precede the request).  The range of phi has both ends. *)
Theorem gates_and_presets_keep_closed_range
    (op : operation) (s : Visualizer) (t p now : R) (fs : list R) (tf : R) :
  idle s -> theta s = Num t -> phi s = Num p ->
  0 <= t <= PI -> 0 <= p <= 2 * PI ->
  supported op -> now + 1000 <= tf ->
  (exists a, animationFrames (perform op now s) = [a] /\
             thetaInRange (targetTheta a) /\ phiInClosedRange (targetPhi a)) /\
  anglesInClosedRange (frames (fs ++ [tf]) (perform op now s)) /\
  idle (frames (fs ++ [tf]) (perform op now s)) /\
  (forall times : list R,
     Forall (fun t' => now <= t') times ->
     anglesInClosedRange (frames times (perform op now s))).
Proof.
  intros Hi Ht Hp Htr Hpr Hop Hlate.
  destruct (perform_request op s t p now Ht Hp Htr Hpr Hop) as (a & b & E & Ha & Hb).
  rewrite E. split.
  - destruct Hi as [Hidle Hf]. rewrite animateToState_idle by exact Hidle.
    cbn [animationFrames]. rewrite Hf. eexists. split; [reflexivity |].
    cbn [targetTheta targetPhi thetaInRange phiInClosedRange]. split; assumption.
  - rewrite (transition_completes s t p a b) by assumption.
    split; [split; assumption |]. split; [apply completed_idle |].
    intros times Htimes.
    apply (frames_onTheWay now times); [exact Htimes |].
    apply (request_onTheWay s t p a b); assumption.
Qed.

Lemma gates_and_presets_keep_closed_range_witness :
  anglesInClosedRange
    (frames ([16; 500] ++ [1000])
       (perform (Gate "y") 0 (mkVisualizer (Num 1) (Num (2 * PI)) false [] 0))) /\
  anglesInClosedRange
    (frames ([16; 500] ++ [1000]) (perform (Preset "left") 0 constructor)).
Proof.
  pose proof PI_RGT_0 as Hpi. pose proof PI2_3_2 as Hpi3.
  assert (Hi : idle constructor) by (split; reflexivity).
  assert (Hi' : idle (mkVisualizer (Num 1) (Num (2 * PI)) false [] 0))
    by (split; reflexivity).
  assert (Ht : 0 <= 0 <= PI) by lra.
  assert (Hp : 0 <= 0 <= 2 * PI) by lra.
  assert (Ht' : 0 <= 1 <= PI) by lra.
  assert (Hp' : 0 <= 2 * PI <= 2 * PI) by lra.
  assert (H1 : 0 + 1000 <= 1000) by lra.
  split.
  - exact (proj1 (proj2 (gates_and_presets_keep_closed_range (Gate "y")
      (mkVisualizer (Num 1) (Num (2 * PI)) false [] 0)
      1 (2 * PI) 0 [16; 500] 1000 Hi' eq_refl eq_refl Ht' Hp'
      (or_intror (or_introl eq_refl)) H1))).
  - exact (proj1 (proj2 (gates_and_presets_keep_closed_range (Preset "left") constructor
      0 0 0 [16; 500] 1000 Hi eq_refl eq_refl Ht Hp
      (or_intror (or_intror (or_intror (or_intror (or_intror (or_introl eq_refl))))))
      H1))).
Defined.

(** C9 as stated fails in doubles.  The state theta = 1, phi =
    3.1415926535897936 (the double next above [Math.PI]) is in range.
    [applyPauliY] computes [(Math.PI - phi) % (2 * Math.PI)], which is
    -4.44e-16; it is negative, so [2 * Math.PI] is added, and the sum rounds
    to [2 * Math.PI]: the requested phi' is 6.283185307179586, the whole
    turn that the correction was to keep it below. *)
Lemma pauliY_target_phi_is_two_PI :
  let s := Double.mkVisualizer 1 0x1.921fb54442d19p+1 false [] 0 in
  let a := Double.mkAnimation 1 0x1.921fb54442d19p+1 0
             (Double.Math.PI - 1) (2 * Double.Math.PI) 1000 in
  (0 <=? Double.theta s)%float = true /\
  (Double.theta s <=? Double.Math.PI)%float = true /\
  (0 <=? Double.phi s)%float = true /\
  (Double.phi s <? 2 * Double.Math.PI)%float = true /\
  Double.rem (Double.Math.PI - Double.phi s) (2 * Double.Math.PI)
  = (- 0x1p-51)%float /\
  Double.animationFrames (Double.applyPauliY 0 s) = [a] /\
  (Double.targetPhi a <? 2 * Double.Math.PI)%float = false.
Proof. vm_compute. repeat split; reflexivity. Qed.

(** ** Unknown identifiers *)

Lemma existsb_eqb_false (key : string) (names : list string) :
  ~ In key names -> existsb (String.eqb key) names = false.
Proof.
  intros H. destruct (existsb (String.eqb key) names) eqn:E; [| reflexivity].
  apply existsb_exists in E. destruct E as (name & Hin & Heq).
  apply String.eqb_eq in Heq. subst name. contradiction.
Qed.

Lemma ownProperty_In {A : Type} (obj : list (string * A)) (key : string) (v : A) :
  ownProperty obj key = Some v -> In key (map fst obj).
Proof.
  induction obj as [| [k w] rest IH]; cbn [ownProperty map fst In].
  - discriminate.
  - destruct (String.eqb k key) eqn:E.
    + intros _. left. apply String.eqb_eq, E.
    + intros H. right. apply IH, H.
Qed.

Lemma ownProperty_None {A : Type} (obj : list (string * A)) (key : string) :
  ~ In key (map fst obj) -> ownProperty obj key = None.
Proof.
  intros H. destruct (ownProperty obj key) as [v |] eqn:E; [| reflexivity].
  apply ownProperty_In in E. contradiction.
Qed.

(** An identifier that is neither a preset nor a member of
    [Object.prototype] is ignored by [setPresetState]. *)
Lemma setPresetState_unknown (state : string) (now : R) (s : Visualizer) :
  ~ In state presetIds -> ~ In state Object_prototype ->
  setPresetState state now s = s.
Proof.
  intros Hp Ho. unfold setPresetState, getProperty.
  rewrite ownProperty_None by exact Hp.
  rewrite existsb_eqb_false by exact Ho. reflexivity.
Qed.

(** An identifier other than x, y, z, h leaves the visualizer as it is in
    [applyQuantumGate] (which throws for three of the inherited names). *)
Lemma applyQuantumGate_unknown (gate : string) (now : R) (s : Visualizer) :
  ~ In gate gateIds -> snd (applyQuantumGate gate now s) = s.
Proof.
  intros Hg. unfold applyQuantumGate, getProperty.
  rewrite ownProperty_None by exact Hg.
  destruct (existsb _ _); reflexivity.
Qed.

(** C7 at the identifier "toString", which is not a preset id:
    [states["toString"]] is the inherited [Object.prototype.toString], which
    is truthy, so [setPresetState] does request a transition, to the target
    (undefined, undefined): the animator starts animating, a callback is
    registered, and the frames of that transition write NaN into both
    angles. *)
Theorem setPresetState_inherited_name :
  ~ In "toString" presetIds /\
  setPresetState "toString" 0 constructor
  = mkVisualizer 0 0 true [mkAnimation 0 0 0 NaN NaN 1000] 0 /\
  setPresetState "toString" 0 constructor <> constructor /\
  theta (frame 1000 (setPresetState "toString" 0 constructor)) = NaN /\
  phi (frame 1000 (setPresetState "toString" 0 constructor)) = NaN.
Proof.
  split.
  { cbn [presetIds In]. intros H.
    repeat (destruct H as [H | H]; [discriminate H |]). exact H. }
  assert (E : setPresetState "toString" 0 constructor
              = mkVisualizer 0 0 true [mkAnimation 0 0 0 NaN NaN 1000] 0)
    by reflexivity.
  split; [exact E |]. split; [rewrite E; discriminate |].
  rewrite E. unfold frame.
  cbn [animationFrames fold_left clearAnimationFrames]. unfold animate.
  destruct (JS.lt _ _); split; reflexivity.
Qed.

(** ** The state display *)

Lemma nearestScaled_3 (x : R) (n : Z) :
  IZR n - 1 / 2 <= x * 1000 < IZR n + 1 / 2 -> nearestScaled x 3 = n.
Proof.
  intros H. unfold nearestScaled. apply Int_part_eq.
  cbn [pow]. lra.
Qed.

Lemma toFixed_3 (x : R) (n : Z) :
  0 <= x -> IZR n - 1 / 2 <= x * 1000 < IZR n + 1 / 2 ->
  toFixed (Num x) 3 = fixedDigits n 3.
Proof.
  intros Hx H. unfold toFixed. rewrite Rltb_false by exact Hx.
  rewrite (nearestScaled_3 x n H). reflexivity.
Qed.

Lemma toFixed_one : toFixed (Num 1) 3 = "1.000".
Proof. rewrite (toFixed_3 1 1000); [reflexivity | lra | simpl; lra]. Qed.

Lemma toFixed_zero : toFixed (Num 0) 3 = "0.000".
Proof. rewrite (toFixed_3 0 0); [reflexivity | lra | simpl; lra]. Qed.

Lemma inv_sqrt2_bounds : 0.7065 <= 1 / sqrt 2 < 0.7075.
Proof.
  assert (H2 : 0 < sqrt 2) by (apply sqrt_lt_R0; lra).
  assert (Hs : sqrt 2 * sqrt 2 = 2) by (apply sqrt_sqrt; lra).
  assert (Hv : 1 / sqrt 2 * sqrt 2 = 1) by (field; lra).
  set (v := 1 / sqrt 2) in *. set (q := sqrt 2) in *.
  assert (Hvv : v * v * 2 = 1).
  { rewrite <- Hs. replace (v * v * (q * q)) with ((v * q) * (v * q)) by ring.
    rewrite Hv. ring. }
  assert (Hvpos : 0 < v) by nra.
  split; nra.
Qed.

Lemma toFixed_inv_sqrt2 : toFixed (Num (1 / sqrt 2)) 3 = "0.707".
Proof.
  pose proof inv_sqrt2_bounds as H.
  rewrite (toFixed_3 _ 707); [reflexivity | lra | simpl; lra].
Qed.

Section FormatComplex.

Variables re im : R.

Lemma formatComplex_real :
  Rabs im < 1e-10 -> formatComplex re im = toFixed re 3.
Proof.
  intros H. unfold formatComplex. cbn [Math.abs JS.lift1 JS.lt].
  rewrite Rltb_true by exact H. reflexivity.
Qed.

Lemma formatComplex_i :
  1e-10 <= Rabs im -> Rabs re < 1e-10 -> Rabs (im - 1) < 1e-10 ->
  formatComplex re im = "i".
Proof.
  intros Him Hre H1. unfold formatComplex.
  cbn [Math.abs JS.lift1 JS.lt JS.sub JS.add JS.lift2].
  rewrite (Rltb_false _ _ Him), (Rltb_true _ _ Hre), (Rltb_true _ _ H1).
  reflexivity.
Qed.

Lemma formatComplex_minus_i :
  1e-10 <= Rabs im -> Rabs re < 1e-10 -> Rabs (im + 1) < 1e-10 ->
  formatComplex re im = "-i".
Proof.
  intros Him Hre H1. unfold formatComplex.
  cbn [Math.abs JS.lift1 JS.lt JS.sub JS.add JS.lift2].
  rewrite (Rltb_false _ _ Him), (Rltb_true _ _ Hre), (Rltb_true _ _ H1).
  rewrite Rltb_false; [reflexivity |].
  unfold Rabs in *. destruct (Rcase_abs (im - 1)), (Rcase_abs (im + 1)); lra.
Qed.

Lemma formatComplex_imaginary :
  1e-10 <= Rabs im -> Rabs re < 1e-10 ->
  1e-10 <= Rabs (im - 1) -> 1e-10 <= Rabs (im + 1) ->
  formatComplex re im = toFixed im 3 ++ "i".
Proof.
  intros Him Hre H1 H2. unfold formatComplex.
  cbn [Math.abs JS.lift1 JS.lt JS.sub JS.add JS.lift2].
  rewrite (Rltb_false _ _ Him), (Rltb_true _ _ Hre), (Rltb_false _ _ H1),
    (Rltb_false _ _ H2).
  reflexivity.
Qed.

Lemma toFixed_nonempty (a : number) : String.eqb (toFixed a 3) "" = false.
Proof.
  destruct a as [| x]; [reflexivity |]. unfold toFixed.
  destruct (Rltb x 0); [reflexivity |].
  unfold fixedDigits. cbv zeta.
  match goal with
  | |- String.eqb (?a ++ "." ++ ?r) "" = false => destruct a; reflexivity
  end.
Qed.

Lemma formatComplex_plus_i :
  1e-10 <= Rabs re -> Rabs (im - 1) < 1e-10 ->
  formatComplex re im = toFixed re 3 ++ " + i".
Proof.
  intros Hre H1. unfold formatComplex.
  cbn [Math.abs JS.lift1 JS.lt JS.gt JS.sub JS.add JS.lift2].
  assert (Him : 1 - 1e-10 < im < 1 + 1e-10).
  { unfold Rabs in H1. destruct (Rcase_abs (im - 1)); lra. }
  rewrite (Rltb_false (Rabs im)) by (rewrite Rabs_pos_eq; lra).
  rewrite (Rltb_false _ _ Hre), (Rltb_true _ _ H1), toFixed_nonempty.
  rewrite Rltb_true by lra. reflexivity.
Qed.

Lemma formatComplex_less_i :
  1e-10 <= Rabs re -> Rabs (im + 1) < 1e-10 ->
  formatComplex re im = toFixed re 3 ++ " - i".
Proof.
  intros Hre H1. unfold formatComplex.
  cbn [Math.abs JS.lift1 JS.lt JS.gt JS.sub JS.add JS.lift2].
  assert (Him : - 1 - 1e-10 < im < - 1 + 1e-10).
  { unfold Rabs in H1. destruct (Rcase_abs (im + 1)); lra. }
  rewrite (Rltb_false (Rabs im)) by (rewrite Rabs_left; lra).
  rewrite (Rltb_false _ _ Hre).
  rewrite (Rltb_false (Rabs (im - 1))) by (rewrite Rabs_left; lra).
  rewrite (Rltb_true _ _ H1), toFixed_nonempty.
  rewrite Rltb_false by lra. reflexivity.
Qed.

Lemma formatComplex_sum :
  1e-10 <= Rabs re -> 1e-10 <= im ->
  1e-10 <= Rabs (im - 1) -> 1e-10 <= Rabs (im + 1) ->
  formatComplex re im = toFixed re 3 ++ " + " ++ toFixed im 3 ++ "i".
Proof.
  intros Hre Him H1 H2. unfold formatComplex.
  cbn [Math.abs JS.lift1 JS.lt JS.gt JS.sub JS.add JS.lift2].
  rewrite (Rltb_false (Rabs im)) by (rewrite Rabs_pos_eq; lra).
  rewrite (Rltb_false _ _ Hre), (Rltb_false _ _ H1), (Rltb_false _ _ H2),
    toFixed_nonempty.
  rewrite Rltb_true by lra. reflexivity.
Qed.

Lemma formatComplex_difference :
  1e-10 <= Rabs re -> im <= - 1e-10 ->
  1e-10 <= Rabs (im - 1) -> 1e-10 <= Rabs (im + 1) ->
  formatComplex re im
  = toFixed re 3 ++ " - " ++ fixedDigits (nearestScaled (- im) 3) 3 ++ "i".
Proof.
  intros Hre Him H1 H2. unfold formatComplex.
  cbn [Math.abs JS.lift1 JS.lt JS.gt JS.sub JS.add JS.lift2].
  rewrite (Rltb_false (Rabs im)) by (rewrite Rabs_left; lra).
  rewrite (Rltb_false _ _ Hre), (Rltb_false _ _ H1), (Rltb_false _ _ H2),
    toFixed_nonempty.
  rewrite Rltb_false by lra.
  unfold toFixed at 2. rewrite Rltb_true by lra. reflexivity.
Qed.

End FormatComplex.

(** The amplitudes of a state with real angles. *)
Lemma alpha_Num (s : Visualizer) (t : R) :
  theta s = Num t -> alpha s = mkComplex (Num (cos (t / 2))) (Num 0).
Proof. intros Ht. unfold alpha. rewrite Ht, div_Num by lra. reflexivity. Qed.

Lemma beta_Num (s : Visualizer) (t p : R) :
  theta s = Num t -> phi s = Num p ->
  beta s = mkComplex (Num (exp 0 * cos p * sin (t / 2)))
                     (Num (exp 0 * sin p * sin (t / 2))).
Proof.
  intros Ht Hp. unfold beta. rewrite Ht, Hp, div_Num by lra. reflexivity.
Qed.

Lemma Rabs_small_0 : Rabs 0 < 1e-10.
Proof. rewrite Rabs_R0. lra. Qed.

(** The display of the ground state (0, 0). *)
Lemma display_ground :
  updateStateDisplay constructor = "|ψ⟩ = 1.000|0⟩ + (0.000)|1⟩".
Proof.
  unfold updateStateDisplay.
  rewrite (alpha_Num constructor 0 eq_refl), (beta_Num constructor 0 0 eq_refl eq_refl).
  cbn [real imag].
  replace (0 / 2) with 0 by lra. rewrite cos_0, sin_0, exp_0.
  replace (1 * 1 * 0) with 0 by ring. replace (1 * 0 * 0) with 0 by ring.
  rewrite !formatComplex_real by apply Rabs_small_0.
  rewrite toFixed_one, toFixed_zero. reflexivity.
Qed.

(** beta at the state (PI/2, PI/2) is i / sqrt 2 and renders as 0.707i. *)
Lemma beta_right_renders :
  let s := mkVisualizer (Num (PI / 2)) (Num (PI / 2)) false [] 0 in
  formatComplex (real (beta s)) (imag (beta s)) = "0.707i".
Proof.
  intros s. rewrite (beta_Num s (PI / 2) (PI / 2) eq_refl eq_refl).
  cbn [real imag].
  replace (PI / 2 / 2) with (PI / 4) by field.
  rewrite exp_0, cos_PI2, sin_PI2, sin_PI4.
  replace (1 * 0 * (1 / sqrt 2)) with 0 by ring.
  replace (1 * 1 * (1 / sqrt 2)) with (1 / sqrt 2) by ring.
  pose proof inv_sqrt2_bounds as Hb.
  rewrite formatComplex_imaginary.
  - rewrite toFixed_inv_sqrt2. reflexivity.
  - rewrite Rabs_pos_eq; lra.
  - apply Rabs_small_0.
  - rewrite Rabs_left; lra.
  - rewrite Rabs_pos_eq; lra.
Qed.

(** beta at the state (PI, PI/2) is i and renders as a bare i. *)
Lemma beta_excited_right_renders :
  let s := mkVisualizer (Num PI) (Num (PI / 2)) false [] 0 in
  formatComplex (real (beta s)) (imag (beta s)) = "i".
Proof.
  intros s. rewrite (beta_Num s PI (PI / 2) eq_refl eq_refl).
  cbn [real imag]. rewrite exp_0, cos_PI2, sin_PI2.
  replace (1 * 0 * 1) with 0 by ring. replace (1 * 1 * 1) with 1 by ring.
  apply formatComplex_i.
  - rewrite Rabs_pos_eq; lra.
  - apply Rabs_small_0.
  - replace (1 - 1) with 0 by ring. apply Rabs_small_0.
Qed.

(** The display of the state (PI/2, PI/2). *)
Lemma display_right :
  updateStateDisplay (mkVisualizer (Num (PI / 2)) (Num (PI / 2)) false [] 0)
  = "|ψ⟩ = 0.707|0⟩ + (0.707i)|1⟩".
Proof.
  unfold updateStateDisplay. rewrite beta_right_renders.
  rewrite (alpha_Num (mkVisualizer (Num (PI / 2)) (Num (PI / 2)) false [] 0)
             (PI / 2) eq_refl).
  cbn [real imag].
  replace (PI / 2 / 2) with (PI / 4) by field. rewrite cos_PI4.
  rewrite formatComplex_real by apply Rabs_small_0.
  rewrite toFixed_inv_sqrt2. reflexivity.
Qed.

(** C8 (as amended).  [formatComplex] drops an imaginary part of magnitude
    below 1e-10 and prints the real part with three decimals; for a real part
    of magnitude below 1e-10 it prints the imaginary part alone, as a bare
    [i] or [-i] when it is within 1e-10 of 1 or -1 and with three decimals
    otherwise; when neither part is that small it prints both, the imaginary
    part after " + " or " - " and again as a bare [i] when it is within 1e-10
    of 1 or -1.  The ground state (0, 0) is displayed with the amplitudes
    1.000 and 0.000.  At (PI/2, PI/2) beta is i / sqrt 2 and is displayed as
    0.707i; the bare [i] is the display of beta at (PI, PI/2). *)
Theorem state_display_format (re im : R) :
  (Rabs im < 1e-10 -> formatComplex re im = toFixed re 3) /\
  (1e-10 <= Rabs im -> Rabs re < 1e-10 -> Rabs (im - 1) < 1e-10 ->
   formatComplex re im = "i") /\
  (1e-10 <= Rabs im -> Rabs re < 1e-10 -> Rabs (im + 1) < 1e-10 ->
   formatComplex re im = "-i") /\
  (1e-10 <= Rabs im -> Rabs re < 1e-10 ->
   1e-10 <= Rabs (im - 1) -> 1e-10 <= Rabs (im + 1) ->
   formatComplex re im = toFixed im 3 ++ "i") /\
  (1e-10 <= Rabs re -> Rabs (im - 1) < 1e-10 ->
   formatComplex re im = toFixed re 3 ++ " + i") /\
  (1e-10 <= Rabs re -> Rabs (im + 1) < 1e-10 ->
   formatComplex re im = toFixed re 3 ++ " - i") /\
  (1e-10 <= Rabs re -> 1e-10 <= im ->
   1e-10 <= Rabs (im - 1) -> 1e-10 <= Rabs (im + 1) ->
   formatComplex re im = toFixed re 3 ++ " + " ++ toFixed im 3 ++ "i") /\
  (1e-10 <= Rabs re -> im <= - 1e-10 ->
   1e-10 <= Rabs (im - 1) -> 1e-10 <= Rabs (im + 1) ->
   formatComplex re im
   = toFixed re 3 ++ " - " ++ fixedDigits (nearestScaled (- im) 3) 3 ++ "i") /\
  updateStateDisplay constructor = "|ψ⟩ = 1.000|0⟩ + (0.000)|1⟩" /\
  updateStateDisplay (mkVisualizer (Num (PI / 2)) (Num (PI / 2)) false [] 0)
  = "|ψ⟩ = 0.707|0⟩ + (0.707i)|1⟩" /\
  (let s := mkVisualizer (Num PI) (Num (PI / 2)) false [] 0 in
   formatComplex (real (beta s)) (imag (beta s)) = "i").
Proof.
  split; [apply formatComplex_real |].
  split; [apply formatComplex_i |].
  split; [apply formatComplex_minus_i |].
  split; [apply formatComplex_imaginary |].
  split; [apply formatComplex_plus_i |].
  split; [apply formatComplex_less_i |].
  split; [apply formatComplex_sum |].
  split; [apply formatComplex_difference |].
  split; [apply display_ground |].
  split; [apply display_right | apply beta_excited_right_renders].
Qed.

Lemma state_display_format_witness :
  Rabs 0 < 1e-10 /\ formatComplex 1 0 = toFixed 1 3.
Proof.
  split; [apply Rabs_small_0 |].
  exact (proj1 (state_display_format 1 0) Rabs_small_0).
Defined.

(** C8 as stated fails at (PI/2, PI/2): beta has magnitude sin(PI/4), not 1,
    and is displayed as 0.707i, not as a bare i. *)
Lemma beta_right_not_bare_i :
  let s := mkVisualizer (Num (PI / 2)) (Num (PI / 2)) false [] 0 in
  formatComplex (real (beta s)) (imag (beta s)) = "0.707i" /\
  formatComplex (real (beta s)) (imag (beta s)) <> "i".
Proof.
  intros s. pose proof beta_right_renders as E. cbv zeta in E. fold s in E.
  split; [exact E |]. rewrite E. discriminate.
Qed.

(** ** Probabilities and amplitudes *)

Lemma updateProbabilities_Num (s : Visualizer) (t : R) :
  theta s = Num t ->
  updateProbabilities s = (Num (cos (t / 2) ^ 2), Num (sin (t / 2) ^ 2)).
Proof.
  intros Ht. unfold updateProbabilities. rewrite Ht, div_Num by lra.
  reflexivity.
Qed.

Lemma square_le_1 (x : R) : -1 <= x <= 1 -> 0 <= x ^ 2 <= 1.
Proof. intros H. cbn [pow]. rewrite Rmult_1_r. split; nra. Qed.

(** X1.  For every real theta the two probabilities [updateProbabilities]
    displays lie in [0, 1] and add up to 1. *)
Theorem probabilities_sum_to_one (s : Visualizer) (t : R) :
  theta s = Num t ->
  exists p0 p1 : R,
    updateProbabilities s = (Num p0, Num p1) /\
    p0 + p1 = 1 /\ 0 <= p0 <= 1 /\ 0 <= p1 <= 1.
Proof.
  intros Ht. exists (cos (t / 2) ^ 2), (sin (t / 2) ^ 2).
  split; [apply updateProbabilities_Num, Ht |].
  pose proof (sin2_cos2 (t / 2)) as H. unfold Rsqr in H.
  split; [cbn [pow]; lra |].
  split; apply square_le_1; [apply COS_bound | apply SIN_bound].
Qed.

Lemma probabilities_sum_to_one_witness :
  exists p0 p1 : R,
    updateProbabilities constructor = (Num p0, Num p1) /\
    p0 + p1 = 1 /\ 0 <= p0 <= 1 /\ 0 <= p1 <= 1.
Proof. exact (probabilities_sum_to_one constructor 0 eq_refl). Defined.

(** X2.  The amplitudes [updateStateDisplay] formats and the probabilities
    [updateProbabilities] shows obey the Born rule: the squared modulus of
    alpha is the probability of 0 and the squared modulus of beta is the
    probability of 1, whatever the phase phi. *)
Theorem amplitudes_born_rule (s : Visualizer) (t p : R) :
  theta s = Num t -> phi s = Num p ->
  (real (alpha s) * real (alpha s) + imag (alpha s) * imag (alpha s))%js
  = fst (updateProbabilities s) /\
  (real (beta s) * real (beta s) + imag (beta s) * imag (beta s))%js
  = snd (updateProbabilities s).
Proof.
  intros Ht Hp.
  rewrite (updateProbabilities_Num s t Ht), (alpha_Num s t Ht),
    (beta_Num s t p Ht Hp).
  cbn [real imag fst snd JS.mul JS.add JS.lift2]. rewrite exp_0.
  pose proof (sin2_cos2 p) as H. unfold Rsqr in H.
  split; apply (f_equal Num); cbn [pow]; [ring |].
  replace (1 * cos p * sin (t / 2) * (1 * cos p * sin (t / 2))
           + 1 * sin p * sin (t / 2) * (1 * sin p * sin (t / 2)))
    with ((sin p * sin p + cos p * cos p) * (sin (t / 2) * sin (t / 2))) by ring.
  rewrite H. ring.
Qed.

Lemma amplitudes_born_rule_witness :
  (real (beta constructor) * real (beta constructor)
   + imag (beta constructor) * imag (beta constructor))%js
  = snd (updateProbabilities constructor).
Proof. exact (proj2 (amplitudes_born_rule constructor 0 0 eq_refl eq_refl)). Defined.

(** ** The arrow *)

Lemma updateQuantumState_Num (s : Visualizer) (t p : R) :
  theta s = Num t -> phi s = Num p ->
  lookAt (updateQuantumState s)
  = THREE.mkVector3 (Num (sin t * sin p)) (Num (cos t)) (Num (sin t * cos p)) /\
  position (updateQuantumState s)
  = THREE.mkVector3 (Num (sin t * sin p * 0.5)) (Num (cos t * 0.5))
      (Num (sin t * cos p * 0.5)).
Proof.
  intros Ht Hp. unfold updateQuantumState. rewrite Ht, Hp. split; reflexivity.
Qed.



(** X3.  For real angles the point [updateQuantumState] turns the arrow
    towards lies on the unit sphere, and the arrow is placed half-way to it,
    at distance 1/2 from the centre. *)
Theorem arrow_on_unit_sphere (s : Visualizer) (t p : R) :
  theta s = Num t -> phi s = Num p ->
  exists sx sy sz : R,
    lookAt (updateQuantumState s) = THREE.mkVector3 (Num sx) (Num sy) (Num sz) /\
    position (updateQuantumState s)
    = THREE.mkVector3 (Num (sx * 0.5)) (Num (sy * 0.5)) (Num (sz * 0.5)) /\
    sx * sx + sy * sy + sz * sz = 1 /\
    (sx * 0.5) * (sx * 0.5) + (sy * 0.5) * (sy * 0.5) + (sz * 0.5) * (sz * 0.5)
    = 1 / 4.
Proof.
  intros Ht Hp. exists (sin t * sin p), (cos t), (sin t * cos p).
  destruct (updateQuantumState_Num s t p Ht Hp) as [E1 E2].
  split; [exact E1 |]. split; [exact E2 |].
  pose proof (unit_vector t p) as H.
  assert (Hu : sin t * sin p * (sin t * sin p) + cos t * cos t
               + sin t * cos p * (sin t * cos p) = 1) by lra.
  split; [exact Hu |]. nra.
Qed.

Lemma arrow_on_unit_sphere_witness :
  exists sx sy sz : R,
    lookAt (updateQuantumState constructor)
    = THREE.mkVector3 (Num sx) (Num sy) (Num sz) /\
    position (updateQuantumState constructor)
    = THREE.mkVector3 (Num (sx * 0.5)) (Num (sy * 0.5)) (Num (sz * 0.5)) /\
    sx * sx + sy * sy + sz * sz = 1 /\
    (sx * 0.5) * (sx * 0.5) + (sy * 0.5) * (sy * 0.5) + (sz * 0.5) * (sz * 0.5)
    = 1 / 4.
Proof. exact (arrow_on_unit_sphere constructor 0 0 eq_refl eq_refl). Defined.

(** ** Degrees and radians *)

Lemma radians_to_degrees (t : R) : (Num t * 180 / Math.PI)%js = Num (t * 180 / PI).
Proof.
  unfold Math.PI. cbn [JS.mul JS.lift2]. apply div_Num.
  pose proof PI_RGT_0. lra.
Qed.

(** X4.  The conversions of [updateSliders] (radians to degrees) and of the
    slider listeners (degrees to radians) undo each other: feeding a slider
    the value [updateSliders] gave it stores the angle there was, and after a
    slider input of [value] degrees [updateSliders] gives the slider [value]
    again. *)
Theorem sliders_round_trip (s : Visualizer) (t p value : R) :
  theta s = Num t -> phi s = Num p ->
  theta (thetaSliderInput (thetaSliderValue (updateSliders s)) s) = Num t /\
  phi (phiSliderInput (phiSliderValue (updateSliders s)) s) = Num p /\
  thetaSliderValue (updateSliders (thetaSliderInput value s)) = Num value /\
  phiSliderValue (updateSliders (phiSliderInput value s)) = Num value.
Proof.
  intros Ht Hp. pose proof PI_RGT_0 as Hpi.
  unfold updateSliders, thetaSliderInput, phiSliderInput.
  cbn [theta phi setTheta setPhi thetaSliderValue phiSliderValue].
  rewrite Ht, Hp, !radians_to_degrees, !degrees_to_radians, !radians_to_degrees.
  repeat split; apply (f_equal Num); field; lra.
Qed.

Lemma sliders_round_trip_witness :
  theta (thetaSliderInput (thetaSliderValue (updateSliders constructor)) constructor)
  = Num 0 /\
  thetaSliderValue (updateSliders (thetaSliderInput 90 constructor)) = Num 90.
Proof.
  pose proof (sliders_round_trip constructor 0 0 90 eq_refl eq_refl) as H.
  exact (conj (proj1 H) (proj1 (proj2 (proj2 H)))).
Defined.

(** ** The gates on the Bloch vector *)

(** X5.  Pauli-Z is an involution on the angle pair, within floating
    tolerance and with phi taken modulo 2 PI: in exact arithmetic, from an
    idle state with phi in [0, 2 PI), applying the gate and letting its
    transition finish (any frames, the last one at or after its end time)
    keeps theta and gives phi' = (phi + PI) mod 2 PI, and doing so once more
    gives back the original phi.  In doubles the two additions of [Math.PI]
    round, so the round trip holds up to that rounding, and next to the seam
    up to a whole turn (a phi one unit below 2 PI comes back as 0). *)
Theorem pauliZ_involution (s : Visualizer) (t p now1 t1 now2 t2 : R)
    (fs1 fs2 : list R) :
  idle s -> theta s = Num t -> phi s = Num p ->
  0 <= p < 2 * PI ->
  now1 + 1000 <= t1 -> now2 + 1000 <= t2 ->
  let s1 := frames (fs1 ++ [t1]) (applyPauliZ now1 s) in
  let s2 := frames (fs2 ++ [t2]) (applyPauliZ now2 s1) in
  theta s1 = Num t /\
  phi s1 = ((Num p + Math.PI) mod (2 * Math.PI))%js /\
  theta s2 = Num t /\ phi s2 = Num p.
Proof.
  intros Hi Ht Hp Hpr H1 H2 s1 s2.
  assert (E1 : s1 = mkVisualizer (Num t) (halfTurn p) false [] (measureTimeouts s)).
  { unfold s1. rewrite (applyPauliZ_request s t p) by assumption.
    apply (transition_completes s t p); assumption. }
  assert (E2 : s2 = mkVisualizer (Num t) p false [] (measureTimeouts s)).
  { unfold s2. rewrite E1.
    rewrite (applyPauliZ_request _ t (halfTurn p))
      by (try reflexivity; apply halfTurn_range; assumption).
    rewrite (transition_completes _ t (halfTurn p))
      by (try reflexivity; try assumption; apply completed_idle).
    rewrite halfTurn_involutive by assumption. reflexivity. }
  rewrite E1, E2, add_PI_rem by assumption. repeat split; reflexivity.
Qed.

Lemma pauliZ_involution_witness :
  let s1 := frames ([16; 500] ++ [1000]) (applyPauliZ 0 constructor) in
  let s2 := frames ([2016; 2500] ++ [3000]) (applyPauliZ 2000 s1) in
  theta s2 = Num 0 /\ phi s2 = Num 0.
Proof.
  pose proof PI_RGT_0 as Hpi.
  assert (Hp : 0 <= 0 < 2 * PI) by lra.
  assert (H1 : 0 + 1000 <= 1000) by lra.
  assert (H2 : 2000 + 1000 <= 3000) by lra.
  exact (proj2 (proj2 (pauliZ_involution constructor 0 0 0 1000 2000 3000
    [16; 500] [2016; 2500]
    (conj eq_refl eq_refl) eq_refl eq_refl Hp H1 H2))).
Defined.












(** ** The presets *)










(** ** Measurement, again *)





(** X11.  A measurement whose timer expires while a transition is in flight
    reports an outcome but does not collapse the state: the request for the
    collapse transition is dropped and the visualizer is left exactly as it
    was. *)
Theorem measurement_while_animating
    (s : Visualizer) (sample : number) (now : R) :
  isAnimating s = true ->
  snd (measurementCallback sample now s) = s.
Proof.
  intros Hb. unfold measurementCallback.
  destruct (JS.strictEq _ _); cbn [snd]; apply animateToState_busy, Hb.
Qed.

Lemma measurement_while_animating_witness :
  let s := step constructor (GateClick "y" 0) in
  isAnimating s = true /\ snd (measurementCallback (1 / 2)%R 300 s) = s.
Proof.
  split; [reflexivity |].
  apply (measurement_while_animating (step constructor (GateClick "y" 0))).
  reflexivity.
Defined.

(** ** Sliders during a transition *)

(** X12.  A slider input made while a transition callback is waiting is
    lost at the next frame: the callback writes both angles from the values
    it captured, so the frame ends in the same state with or without the
    slider input. *)
Theorem slider_input_overwritten
    (s : Visualizer) (a : Animation) (value : number) (t : R) :
  animationFrames s = [a] ->
  frame t (thetaSliderInput value s) = frame t s /\
  frame t (phiSliderInput value s) = frame t s.
Proof.
  intros Hf. unfold frame, thetaSliderInput, phiSliderInput.
  cbn [animationFrames setTheta setPhi]. rewrite Hf. cbn [fold_left].
  unfold animate.
  split; destruct (JS.lt _ _); reflexivity.
Qed.

Lemma slider_input_overwritten_witness :
  let s := step constructor (GateClick "x" 0) in
  frame 500 (thetaSliderInput 45 s) = frame 500 s.
Proof.
  exact (proj1 (slider_input_overwritten (step constructor (GateClick "x" 0))
    (mkAnimation 0 0 0 (Math.PI - 0)%js ((0 + Math.PI) mod (2 * Math.PI))%js 1000)
    45 500 eq_refl)).
Defined.

(** ** The path of a transition *)











(** ** The angle ranges over a whole session *)

Lemma anglesInClosedRange_Num (s : Visualizer) :
  anglesInClosedRange s ->
  exists t p : R,
    theta s = Num t /\ phi s = Num p /\ 0 <= t <= PI /\ 0 <= p <= 2 * PI.
Proof.
  unfold anglesInClosedRange, thetaInRange, phiInClosedRange.
  destruct (theta s) as [| t], (phi s) as [| p]; intros [Ht Hp];
    try contradiction.
  exists t, p. repeat split; tauto.
Qed.

Lemma inSession_later (clock clock' : R) (s : Visualizer) :
  clock <= clock' -> inSession clock s -> inSession clock' s.
Proof. intros H (t0 & Ht0 & Hs). exists t0. split; [lra | exact Hs]. Qed.

Lemma inSession_animateToState (clock now a b : R) (s : Visualizer) :
  clock <= now -> 0 <= a <= PI -> 0 <= b <= 2 * PI ->
  inSession clock s ->
  inSession now (animateToState (Num a) (Num b) defaultDuration now s).
Proof.
  intros Hnow Ha Hb (t0 & Ht0 & Hr & Hs).
  destruct Hs as [Hi | (Hbusy & Hrest)].
  - destruct (anglesInClosedRange_Num s Hr) as (t & p & Ht & Hp & Htr & Hpr).
    exists now. split; [lra |].
    apply (request_onTheWay s t p a b); assumption.
  - rewrite animateToState_busy by exact Hbusy.
    exists t0. split; [lra |]. split; [exact Hr |]. right. split; assumption.
Qed.

Lemma inSession_perform (clock now : R) (op : operation) (s : Visualizer) :
  clock <= now -> supported op -> inSession clock s ->
  inSession now (perform op now s).
Proof.
  intros Hnow Hop Hs.
  assert (Hr : anglesInClosedRange s)
    by (destruct Hs as (t0 & _ & Hr & _); exact Hr).
  destruct (anglesInClosedRange_Num s Hr) as (t & p & Ht & Hp & Htr & Hpr).
  destruct (perform_request op s t p now Ht Hp Htr Hpr Hop) as (a & b & E & Ha & Hb).
  rewrite E. apply (inSession_animateToState clock); assumption.
Qed.

Lemma measurementCallback_request (sample : number) (now : R) (s : Visualizer) :
  snd (measurementCallback sample now s)
  = animateToState (Num 0) (Num 0) defaultDuration now s \/
  snd (measurementCallback sample now s)
  = animateToState (Num PI) (Num 0) defaultDuration now s.
Proof.
  unfold measurementCallback.
  destruct (JS.strictEq _ _); [left | right]; reflexivity.
Qed.

Lemma onTheWay_setTheta (t0 v : R) (s : Visualizer) :
  0 <= v <= PI -> onTheWay t0 s -> onTheWay t0 (setTheta (Num v) s).
Proof.
  intros Hv [[_ Hp] Hs]. split; [split; [exact Hv | exact Hp] | exact Hs].
Qed.

Lemma onTheWay_setPhi (t0 v : R) (s : Visualizer) :
  0 <= v <= 2 * PI -> onTheWay t0 s -> onTheWay t0 (setPhi (Num v) s).
Proof.
  intros Hv [[Ht _] Hs]. split; [split; [exact Ht | exact Hv] | exact Hs].
Qed.

Lemma onTheWay_setMeasureTimeouts (t0 : R) (n : nat) (s : Visualizer) :
  onTheWay t0 s -> onTheWay t0 (setMeasureTimeouts n s).
Proof. intros [Hr Hs]. split; [exact Hr | exact Hs]. Qed.

Lemma session_step (clock : R) (e : event) (s : Visualizer) :
  eventInOrder clock e -> inSession clock s ->
  inSession (clockAfter clock e) (step s e).
Proof.
  intros He Hs. pose proof PI_RGT_0 as Hpi.
  destruct e as [v | v | state now | gate now | | sample now | now | now];
    cbn [eventInOrder clockAfter step] in *.
  - destruct He as (d & -> & Hd). destruct Hs as (t0 & Ht0 & Hs).
    exists t0. split; [exact Ht0 |].
    unfold thetaSliderInput. rewrite degrees_to_radians.
    apply onTheWay_setTheta; [split; nra | exact Hs].
  - destruct He as (d & -> & Hd). destruct Hs as (t0 & Ht0 & Hs).
    exists t0. split; [exact Ht0 |].
    unfold phiSliderInput. rewrite degrees_to_radians.
    apply onTheWay_setPhi; [split; nra | exact Hs].
  - destruct He as [Hproto Hnow].
    destruct (in_dec string_dec state presetIds) as [Hin | Hnin].
    + apply (inSession_perform clock now (Preset state)); assumption.
    + rewrite setPresetState_unknown by assumption.
      apply (inSession_later clock); assumption.
  - destruct (in_dec string_dec gate gateIds) as [Hin | Hnin].
    + apply (inSession_perform clock now (Gate gate)); assumption.
    + rewrite applyQuantumGate_unknown by assumption.
      apply (inSession_later clock); assumption.
  - destruct Hs as (t0 & Ht0 & Hs). exists t0. split; [exact Ht0 |].
    apply onTheWay_setMeasureTimeouts, Hs.
  - unfold measureTimeout. destruct (measureTimeouts s) as [| n].
    + apply (inSession_later clock); assumption.
    + assert (Hs' : inSession clock (setMeasureTimeouts n s)).
      { destruct Hs as (t0 & Ht0 & Hs). exists t0. split; [exact Ht0 |].
        apply onTheWay_setMeasureTimeouts, Hs. }
      destruct (measurementCallback_request sample now (setMeasureTimeouts n s))
        as [E | E]; rewrite E;
        apply (inSession_animateToState clock); try assumption; lra.
  - apply (inSession_animateToState clock); try assumption; lra.
  - destruct Hs as (t0 & Ht0 & Hs). exists t0. split; [lra |].
    apply frame_onTheWay; [lra | exact Hs].
Qed.

Lemma session_steps (events : list event) (clock : R) (s : Visualizer) :
  chronological clock events -> inSession clock s ->
  exists clock', inSession clock' (fold_left step events s).
Proof.
  revert clock s. induction events as [| e events IH]; intros clock s Hc Hs.
  - exists clock. exact Hs.
  - destruct Hc as [He Hc]. cbn [fold_left].
    apply (IH (clockAfter clock e)); [exact Hc |].
    apply session_step; assumption.
Qed.

(** X14.  The angle ranges hold throughout a session: after any sequence of
    events (slider inputs, preset, gate, measure and reset clicks, timer
    expiries, frames) in which the slider values are within 0..180 and
    0..360 degrees, no preset identifier names a member of
    [Object.prototype] and the clock never runs backwards, theta is in
    [0, PI] and phi in [0, 2 PI], also in the middle of a transition.  The
    end 2 PI is part of the range: the slider stores it at 360 degrees, and
    in doubles a gate can produce it through rounding. *)
Theorem session_keeps_angles_in_range (clock : R) (events : list event) :
  chronological clock events -> anglesInClosedRange (run events).
Proof.
  intros Hc. pose proof PI_RGT_0 as Hpi.
  assert (H0 : inSession clock constructor).
  { exists clock. split; [lra |]. split.
    - split; cbn [theta phi constructor thetaInRange phiInClosedRange]; lra.
    - left. split; reflexivity. }
  destruct (session_steps events clock constructor Hc H0) as (clock' & t0 & _ & Hr & _).
  exact Hr.
Qed.

Lemma session_keeps_angles_in_range_witness :
  anglesInClosedRange
    (run [ GateClick "h" 0; Frame 400; ThetaSlider 90; Frame 1200;
           PresetClick "left" 1300; MeasureClick; Frame 1700;
           MeasureTimeout (1 / 2)%R 2300; PhiSlider 360; Frame 2400;
           GateClick "y" 2500; Frame 3500 ]).
Proof.
  apply (session_keeps_angles_in_range 0).
  cbn [chronological eventInOrder clockAfter].
  repeat split; try lra.
  - exists 90. split; [reflexivity | lra].
  - cbn [Object_prototype In]. intros H.
    repeat (destruct H as [H | H]; [discriminate H |]). exact H.
  - exists 360. split; [reflexivity | lra].
Defined.

(** ** No NaN *)

Lemma rem_two_PI_Num (x : R) :
  exists r : R, (Num x mod Num (2 * PI))%js = Num r.
Proof.
  unfold JS.rem. rewrite Reqb_false by (pose proof PI_RGT_0; lra).
  eexists. reflexivity.
Qed.

Lemma pauli_requests_Num (s : Visualizer) (t p now : R) :
  theta s = Num t -> phi s = Num p ->
  (exists a b : R,
     applyPauliX now s = animateToState (Num a) (Num b) defaultDuration now s) /\
  (exists a b : R,
     applyPauliY now s = animateToState (Num a) (Num b) defaultDuration now s) /\
  (exists a b : R,
     applyPauliZ now s = animateToState (Num a) (Num b) defaultDuration now s).
Proof.
  intros Ht Hp. unfold applyPauliX, applyPauliY, applyPauliZ.
  rewrite Ht, Hp, !two_PI. unfold Math.PI.
  cbn [JS.sub JS.add JS.lift2].
  destruct (rem_two_PI_Num (p + PI)) as [r1 E1].
  destruct (rem_two_PI_Num (PI - p)) as [r2 E2].
  rewrite E1, E2. cbv zeta. cbn [JS.lt JS.add JS.lift2].
  repeat split.
  - eexists. eexists. reflexivity.
  - destruct (Rltb r2 0); eexists; eexists; reflexivity.
  - eexists. eexists. reflexivity.
Qed.

Lemma setPresetState_request (state : string) (now : R) (s : Visualizer) :
  In state presetIds ->
  exists a b : R,
    setPresetState state now s
    = animateToState (Num a) (Num b) defaultDuration now s.
Proof.
  cbn [presetIds In].
  intros [<- | [<- | [<- | [<- | [<- | [<- | []]]]]]].
  - exists 0, 0. reflexivity.
  - exists PI, 0. reflexivity.
  - exists (PI / 2), 0.
    change (setPresetState "plus" now s)
      with (animateToState (Math.PI / 2)%js 0 defaultDuration now s).
    rewrite half_PI. reflexivity.
  - exists (PI / 2), PI.
    change (setPresetState "minus" now s)
      with (animateToState (Math.PI / 2)%js Math.PI defaultDuration now s).
    rewrite half_PI. reflexivity.
  - exists (PI / 2), (PI / 2).
    change (setPresetState "right" now s)
      with (animateToState (Math.PI / 2)%js (Math.PI / 2)%js defaultDuration now s).
    rewrite half_PI. reflexivity.
  - exists (PI / 2), (3 * PI / 2).
    change (setPresetState "left" now s)
      with (animateToState (Math.PI / 2)%js (3 * Math.PI / 2)%js
              defaultDuration now s).
    rewrite half_PI, three_half_PI. reflexivity.
Qed.

Lemma numeric_animateToState (a b now : R) (s : Visualizer) :
  numeric s -> numeric (animateToState (Num a) (Num b) defaultDuration now s).
Proof.
  intros [(t & p & Ht & Hp) Hs].
  destruct Hs as [[Hi Hf] | (Hbusy & Hrest)].
  - rewrite animateToState_idle by exact Hi. rewrite Hf, Ht, Hp. split.
    + exists t, p. split; reflexivity.
    + right. split; [reflexivity |]. exists t, p, now, a, b. reflexivity.
  - rewrite animateToState_busy by exact Hbusy.
    split; [exists t, p; split; assumption | right; split; assumption].
Qed.

Lemma numeric_gate (gate : string) (now : R) (s : Visualizer) :
  numeric s -> numeric (snd (applyQuantumGate gate now s)).
Proof.
  intros Hs.
  destruct (in_dec string_dec gate gateIds) as [Hin | Hnin].
  - assert (Hang : exists t p : R, theta s = Num t /\ phi s = Num p)
      by (destruct Hs as [H _]; exact H).
    destruct Hang as (t & p & Ht & Hp).
    destruct (pauli_requests_Num s t p now Ht Hp)
      as ((ax & bx & Ex) & (ay & by_ & Ey) & (az & bz & Ez)).
    destruct (applyHadamard_request s t p now Ht Hp) as (ah & bh & Eh & _).
    cbn [gateIds In] in Hin.
    destruct Hin as [<- | [<- | [<- | [<- | []]]]].
    + change (snd (applyQuantumGate "x" now s)) with (applyPauliX now s).
      rewrite Ex. apply numeric_animateToState, Hs.
    + change (snd (applyQuantumGate "y" now s)) with (applyPauliY now s).
      rewrite Ey. apply numeric_animateToState, Hs.
    + change (snd (applyQuantumGate "z" now s)) with (applyPauliZ now s).
      rewrite Ez. apply numeric_animateToState, Hs.
    + change (snd (applyQuantumGate "h" now s)) with (applyHadamard now s).
      rewrite Eh. apply numeric_animateToState, Hs.
  - rewrite applyQuantumGate_unknown by exact Hnin. exact Hs.
Qed.

Lemma numeric_frame (now : R) (s : Visualizer) : numeric s -> numeric (frame now s).
Proof.
  intros [(t & p & Ht & Hp) Hs].
  destruct Hs as [[Hi Hf] | (Hbusy & st & sp & t0 & tt & tp & Hf)].
  - unfold frame. rewrite Hf. cbn [fold_left]. split.
    + exists t, p. split; assumption.
    + left. split; [exact Hi | reflexivity].
  - unfold frame. rewrite Hf. cbn [fold_left].
    assert (Hd : 1000 <> 0) by lra.
    rewrite (animate_Num _ now t0 st sp tt tp 1000 Hd).
    destruct (Rltb (progressAt t0 1000 now) 1).
    + split; [eexists; eexists; split; reflexivity |].
      right. cbn [isAnimating animationFrames clearAnimationFrames app].
      split; [exact Hbusy |]. exists st, sp, t0, tt, tp. reflexivity.
    + split; [eexists; eexists; split; reflexivity |].
      left. split; reflexivity.
Qed.

Lemma numeric_setMeasureTimeouts (n : nat) (s : Visualizer) :
  numeric s -> numeric (setMeasureTimeouts n s).
Proof. intros [Ha Hs]. split; [exact Ha | exact Hs]. Qed.

Lemma numeric_step (clock : R) (e : event) (s : Visualizer) :
  eventNumeric clock e -> numeric s -> numeric (step s e).
Proof.
  intros He Hs.
  destruct e as [v | v | state now | gate now | | sample now | now | now];
    cbn [eventNumeric step] in *.
  - destruct He as (d & -> & _). destruct Hs as [(t & p & Ht & Hp) Hs].
    unfold thetaSliderInput. rewrite degrees_to_radians.
    split; [| exact Hs]. eexists. exists p. split; [reflexivity | exact Hp].
  - destruct He as (d & -> & _). destruct Hs as [(t & p & Ht & Hp) Hs].
    unfold phiSliderInput. rewrite degrees_to_radians.
    split; [| exact Hs]. exists t. eexists. split; [exact Ht | reflexivity].
  - destruct He as [Hproto _].
    destruct (in_dec string_dec state presetIds) as [Hin | Hnin].
    + destruct (setPresetState_request state now s Hin) as (a & b & E).
      rewrite E. apply numeric_animateToState, Hs.
    + rewrite setPresetState_unknown by assumption. exact Hs.
  - apply numeric_gate, Hs.
  - apply numeric_setMeasureTimeouts, Hs.
  - unfold measureTimeout. destruct (measureTimeouts s) as [| n]; [exact Hs |].
    destruct (measurementCallback_request sample now (setMeasureTimeouts n s))
      as [E | E]; rewrite E;
      apply numeric_animateToState, numeric_setMeasureTimeouts, Hs.
  - apply numeric_animateToState, Hs.
  - apply numeric_frame, Hs.
Qed.

(** X15.  The angles never become NaN: after any sequence of events in
    which the slider values are numbers of magnitude at most 1e300 (far
    beyond the sliders' ranges), no preset identifier names a member of
    [Object.prototype] and the clock never runs backwards, whatever the
    identifiers of the gate clicks and the samples, theta and phi are both
    numbers.  (The bound and the clock keep doubles from overflowing: there
    an infinite angle, or an eased progress that overflows, turns into NaN
    in the next subtraction or product.) *)
Theorem session_never_NaN (clock : R) (events : list event) :
  allNumeric clock events ->
  exists t p : R, theta (run events) = Num t /\ phi (run events) = Num p.
Proof.
  intros H.
  assert (H0 : numeric constructor).
  { split; [exists 0, 0; split; reflexivity | left; split; reflexivity]. }
  unfold run. revert clock H H0. generalize constructor.
  induction events as [| e events IH]; intros s clock H Hs.
  - destruct Hs as [Ha _]. exact Ha.
  - destruct H as [He H]. cbn [fold_left].
    apply (IH _ (clockAfter clock e)); [exact H |].
    apply (numeric_step clock); assumption.
Qed.

Lemma session_never_NaN_witness :
  exists t p : R,
    theta (run [ GateClick "toString" 100; Frame 900; ThetaSlider 720;
                 MeasureClick; MeasureTimeout NaN 950; Frame 2000 ]) = Num t /\
    phi (run [ GateClick "toString" 100; Frame 900; ThetaSlider 720;
               MeasureClick; MeasureTimeout NaN 950; Frame 2000 ]) = Num p.
Proof.
  apply (session_never_NaN 0).
  cbn [allNumeric eventNumeric clockAfter].
  repeat split; try lra.
  exists 720. split; [reflexivity |]. rewrite Rabs_pos_eq; lra.
Defined.

(** ** Complex arithmetic *)

Lemma sum_of_squares_nonneg (a b : R) : 0 <= a * a + b * b.
Proof. nra. Qed.

Lemma abs_Num (a b : R) :
  ComplexUtil.abs (ComplexUtil.mk (Num a) (Num b)) = Num (sqrt (a * a + b * b)).
Proof.
  unfold ComplexUtil.abs, MathExt.sqrt.
  cbn [ComplexUtil.re ComplexUtil.im JS.mul JS.add JS.lift2].
  rewrite Rltb_false by apply sum_of_squares_nonneg. reflexivity.
Qed.

(** X16.  Polar form round trip of the complex utilities, in exact
    arithmetic: for real components of magnitude at most 1e100 that are
    both zero or not both below 1e-100, scaling the unit number
    (cos(arg c), sin(arg c)) by abs(c) gives back c.  (The bounds keep the
    squares in [abs] from overflowing or vanishing in doubles, where the
    round trip holds up to rounding.) *)
Theorem complex_polar_round_trip (a b : R) :
  Rabs a <= 1e100 -> Rabs b <= 1e100 ->
  (a = 0 /\ b = 0) \/ 1e-100 <= Rabs a \/ 1e-100 <= Rabs b ->
  let c := ComplexUtil.complex (Num a) (Num b) in
  ComplexUtil.scale
    (ComplexUtil.complex (Math.cos (ComplexUtil.arg c))
                         (Math.sin (ComplexUtil.arg c)))
    (ComplexUtil.abs c)
  = c.
Proof.
  intros _ _ _ c. unfold c, ComplexUtil.complex. rewrite abs_Num.
  unfold ComplexUtil.arg, ComplexUtil.scale.
  cbn [ComplexUtil.re ComplexUtil.im Math.atan2 Math.cos Math.sin
       JS.lift1 JS.lift2 JS.mul].
  pose proof (sum_of_squares_nonneg a b) as Hn.
  pose proof (sqrt_pos (a * a + b * b)) as Hr.
  pose proof (sqrt_sqrt _ Hn) as Hrr.
  set (r := sqrt (a * a + b * b)) in *.
  destruct (Rle_lt_or_eq_dec 0 r Hr) as [Hpos | Hzero].
  - destruct (Ratan2_direction a b r Hpos Hrr) as [E1 E2].
    rewrite E1, E2. reflexivity.
  - rewrite <- Hzero in *.
    assert (Ha : a = 0) by nra. assert (Hb : b = 0) by nra. subst a b.
    f_equal; apply (f_equal Num); ring.
Qed.

Lemma complex_polar_round_trip_witness :
  let c := ComplexUtil.complex (Num 3) (Num (-4)) in
  ComplexUtil.scale
    (ComplexUtil.complex (Math.cos (ComplexUtil.arg c))
                         (Math.sin (ComplexUtil.arg c)))
    (ComplexUtil.abs c)
  = c.
Proof.
  apply (complex_polar_round_trip 3 (-4)).
  - rewrite Rabs_pos_eq; lra.
  - rewrite Rabs_left; lra.
  - right. left. rewrite Rabs_pos_eq; lra.
Defined.

(** X17.  Laws of the complex utilities on real components: [mul] is
    commutative, [abs] is multiplicative (the modulus of a product is the
    product of the moduli), [sub] undoes [add], and [scale] by a real is
    [mul] by that real. *)
Theorem complex_arithmetic_laws (a b c d k : R) :
  let c1 := ComplexUtil.complex (Num a) (Num b) in
  let c2 := ComplexUtil.complex (Num c) (Num d) in
  ComplexUtil.mul c1 c2 = ComplexUtil.mul c2 c1 /\
  ComplexUtil.abs (ComplexUtil.mul c1 c2)
  = (ComplexUtil.abs c1 * ComplexUtil.abs c2)%js /\
  ComplexUtil.sub (ComplexUtil.add c1 c2) c2 = c1 /\
  ComplexUtil.scale c1 (Num k)
  = ComplexUtil.mul c1 (ComplexUtil.complex (Num k) (Num 0)).
Proof.
  intros c1 c2. unfold c1, c2, ComplexUtil.complex.
  split; [| split; [| split]].
  - unfold ComplexUtil.mul.
    cbn [ComplexUtil.re ComplexUtil.im JS.mul JS.add JS.sub JS.lift2].
    f_equal; apply (f_equal Num); ring.
  - unfold ComplexUtil.mul at 1.
    cbn [ComplexUtil.re ComplexUtil.im JS.mul JS.add JS.sub JS.lift2].
    rewrite !abs_Num. cbn [JS.mul JS.lift2]. apply (f_equal Num).
    rewrite <- sqrt_mult by apply sum_of_squares_nonneg.
    f_equal. ring.
  - unfold ComplexUtil.sub, ComplexUtil.add.
    cbn [ComplexUtil.re ComplexUtil.im JS.add JS.sub JS.lift2].
    f_equal; apply (f_equal Num); ring.
  - unfold ComplexUtil.scale, ComplexUtil.mul.
    cbn [ComplexUtil.re ComplexUtil.im JS.mul JS.add JS.sub JS.lift2].
    f_equal; apply (f_equal Num); ring.
Qed.

(** X18.  [Complex.exp] turns sums into products, in exact arithmetic: for
    real components with real parts of magnitude at most 300 and imaginary
    parts of magnitude at most 1000, [exp(z1).mul(exp(z2))] is [exp] of the
    componentwise sum; and [exp] of a purely imaginary number has modulus 1,
    so that [beta] has the modulus of [sin(theta/2)].  (The bounds keep
    [Math.exp] from overflowing in doubles and the sum of two phases from
    losing a phase to rounding; within them the laws hold in doubles up to
    rounding.  The code only calls [exp] with real part 0 and a phase in
    [0, 2 PI].) *)
Theorem complex_exp_laws (a b c d : R) :
  Rabs a <= 300 -> Rabs c <= 300 -> Rabs b <= 1000 -> Rabs d <= 1000 ->
  ComplexOps.mul (ComplexOps.exp (mkComplex (Num a) (Num b)))
                 (ComplexOps.exp (mkComplex (Num c) (Num d)))
  = ComplexOps.exp (mkComplex (Num (a + c)) (Num (b + d))) /\
  (let u := ComplexOps.exp (mkComplex (Num 0) (Num b)) in
   (real u * real u + imag u * imag u)%js = Num 1).
Proof.
  intros _ _ _ _.
  unfold ComplexOps.exp, ComplexOps.mul.
  cbn [real imag Math.exp Math.cos Math.sin JS.lift1 JS.lift2 JS.mul JS.add JS.sub].
  split.
  - rewrite exp_plus, cos_plus, sin_plus. f_equal; apply (f_equal Num); ring.
  - rewrite exp_0. apply (f_equal Num).
    pose proof (sin2_cos2 b) as H. unfold Rsqr in H. lra.
Qed.

Lemma complex_exp_laws_witness :
  ComplexOps.mul (ComplexOps.exp (mkComplex (Num 0) (Num 1)))
                 (ComplexOps.exp (mkComplex (Num 0) (Num 2)))
  = ComplexOps.exp (mkComplex (Num (0 + 0)) (Num (1 + 2))).
Proof.
  assert (H : Rabs 0 <= 300) by (rewrite Rabs_R0; lra).
  assert (H1 : Rabs 1 <= 1000) by (rewrite Rabs_pos_eq; lra).
  assert (H2 : Rabs 2 <= 1000) by (rewrite Rabs_pos_eq; lra).
  exact (proj1 (complex_exp_laws 0 1 0 2 H H H1 H2)).
Defined.

(** ** The format of a displayed amplitude *)

Lemma nearestScaled_nearest (x : R) (f : nat) :
  IZR (nearestScaled x f) - 1 / 2 <= x * 10 ^ f < IZR (nearestScaled x f) + 1 / 2.
Proof.
  unfold nearestScaled.
  destruct (base_Int_part (x * 10 ^ f + 1 / 2)) as [H1 H2]. lra.
Qed.

Lemma wellFormatted_up_to_1000 : forallb wellFormatted (seq 0 1001) = true.
Proof. vm_compute. reflexivity. Qed.

Lemma fixedDigits_format (n : Z) :
  (0 <= n <= 1000)%Z ->
  String.length (fixedDigits n 3) = 5%nat /\
  String.get 1 (fixedDigits n 3) = Some "."%char.
Proof.
  intros Hn.
  pose proof wellFormatted_up_to_1000 as H.
  rewrite forallb_forall in H.
  specialize (H (Z.to_nat n)).
  assert (Hin : In (Z.to_nat n) (seq 0 1001)) by (apply in_seq; lia).
  apply H in Hin. unfold wellFormatted in Hin.
  rewrite Z2Nat.id in Hin by lia.
  apply andb_true_iff in Hin. destruct Hin as [Hl Hg].
  split; [apply Nat.eqb_eq, Hl |].
  destruct (String.get 1 (fixedDigits n 3)) as [c |]; [| discriminate].
  apply Ascii.eqb_eq in Hg. subst c. reflexivity.
Qed.

(** X19.  How an amplitude component is printed: for every real x in
    [-1, 1], [x.toFixed(3)] is a minus sign when x is negative followed by
    one digit, a point and three digits, and these digits are those of an
    integer n in 0..1000 with | |x| * 1000 - n | <= 1/2, so the printed
    value is within 0.0005 of x. *)
Theorem amplitude_format (x : R) :
  -1 <= x <= 1 ->
  exists n : Z,
    (0 <= n <= 1000)%Z /\
    Rabs (Rabs x * 1000 - IZR n) <= 1 / 2 /\
    toFixed (Num x) 3 = (if Rltb x 0 then "-" else "") ++ fixedDigits n 3 /\
    String.length (fixedDigits n 3) = 5%nat /\
    String.get 1 (fixedDigits n 3) = Some "."%char.
Proof.
  intros Hx. exists (nearestScaled (Rabs x) 3).
  pose proof (nearestScaled_nearest (Rabs x) 3) as Hn.
  assert (Hp : 10 ^ 3 = 1000) by (cbn [pow]; ring).
  rewrite Hp in Hn.
  assert (Ha : 0 <= Rabs x <= 1).
  { split; [apply Rabs_pos |]. unfold Rabs. destruct (Rcase_abs x); lra. }
  assert (Hrange : (0 <= nearestScaled (Rabs x) 3 <= 1000)%Z).
  { split.
    - assert (H : (-1 < nearestScaled (Rabs x) 3)%Z) by (apply lt_IZR; lra).
      lia.
    - assert (H : (nearestScaled (Rabs x) 3 < 1001)%Z) by (apply lt_IZR; lra).
      lia. }
  split; [exact Hrange |].
  split.
  { unfold Rabs at 1.
    destruct (Rcase_abs (Rabs x * 1000 - IZR (nearestScaled (Rabs x) 3))); lra. }
  split; [| apply fixedDigits_format, Hrange].
  unfold toFixed. destruct (Rlt_dec x 0) as [Hneg | Hpos].
  - rewrite Rltb_true by exact Hneg. rewrite (Rabs_left x Hneg). reflexivity.
  - rewrite Rltb_false by lra. rewrite Rabs_pos_eq by lra. reflexivity.
Qed.

Lemma amplitude_format_witness :
  exists n : Z,
    (0 <= n <= 1000)%Z /\
    Rabs (Rabs (1 / 2) * 1000 - IZR n) <= 1 / 2 /\
    toFixed (Num (1 / 2)) 3
    = (if Rltb (1 / 2) 0 then "-" else "") ++ fixedDigits n 3 /\
    String.length (fixedDigits n 3) = 5%nat /\
    String.get 1 (fixedDigits n 3) = Some "."%char.
Proof.
  assert (H : -1 <= 1 / 2 <= 1) by lra.
  exact (amplitude_format (1 / 2) H).
Defined.

(** ** The Pauli gates commute *)




